(** * Hangman MCP server: session registry and game state machine

    A shallow embedding of [src/mcp_servers/hangman_mcp.py] and the
    properties of its game state machine.

    Conventions of the embedding.
    - Python [str] is [string]; a character is a string of length one, as
      in Python (iterating a [str] yields one-character strings).  Text is
      taken to be 7-bit ASCII: there the functions [upper], [lower],
      [strip], [split] and [isalpha] below coincide with Python's.  The
      codes above 127 of the type [ascii] stand for no Python character;
      [upper] and [lower] leave them alone and they are neither letters nor
      white space.  Python's [isalpha] and [upper] know every Unicode
      letter: a guess such as an accented letter is accepted by the program
      and lies outside the model, so no statement below says that a guess
      is one of the letters A to Z.
    - Python [int] is [Z]; [set[str]] is [gset string]; the module-level
      dictionary [game_sessions] is a [gmap string GameState] that every
      operation takes and returns.  A [GameState] object is reached only
      through the dictionary, so mutating the object in place is writing
      the new record back under its key.
    - A call that may raise returns an [outcome]; [try]/[except] is a match
      on it.
    - [randint] draws from the environment: the drawn number is an explicit
      argument [draw]. *)

From Stdlib Require Import ZArith Ascii.
From stdpp Require Import gmap strings list fin_maps sorting.

#[local] Set Warnings "-clear-no-such-hyp".

(** ** Exceptions *)

Inductive exception :=
| KeyError (msg : string)
| ValueError (msg : string)
| RuntimeError (msg : string)
| IndexError (msg : string).

(** [str(e)]: the message, except for a [KeyError], whose [str] is the
    [repr] of the key (the key between single quotes, for a key that needs
    no escaping). *)
Definition exception_str (e : exception) : string :=
  match e with
  | KeyError m => "'" +:+ m +:+ "'"
  | ValueError m => m
  | RuntimeError m => m
  | IndexError m => m
  end.

Inductive outcome (A : Type) :=
| Returned (a : A)
| Raised (e : exception).
Arguments Returned {A} a.
Arguments Raised {A} e.

(** ** Text *)

Module Text.

Definition code (c : ascii) : N := N_of_ascii c.

Definition is_upper_char (c : ascii) : bool :=
  ((65 <=? code c) && (code c <=? 90))%N.

Definition is_lower_char (c : ascii) : bool :=
  ((97 <=? code c) && (code c <=? 122))%N.

Definition is_alpha_char (c : ascii) : bool :=
  is_upper_char c || is_lower_char c.

(** White space of [str.isspace] below 128: TAB, LF, VT, FF, CR, the four
    separators FS, GS, RS, US and the space. *)
Definition is_space_char (c : ascii) : bool :=
  ((9 <=? code c) && (code c <=? 13) ||
   (28 <=? code c) && (code c <=? 32))%N.

Definition upper_char (c : ascii) : ascii :=
  if is_lower_char c then ascii_of_N (code c - 32) else c.

Definition lower_char (c : ascii) : ascii :=
  if is_upper_char c then ascii_of_N (code c + 32) else c.

Fixpoint map_chars (f : ascii → ascii) (s : string) : string :=
  match s with
  | EmptyString => EmptyString
  | String c s' => String (f c) (map_chars f s')
  end.

(** [s.upper()], [s.lower()] *)
Definition upper : string → string := map_chars upper_char.
Definition lower : string → string := map_chars lower_char.

Fixpoint all_chars (p : ascii → bool) (s : string) : bool :=
  match s with
  | EmptyString => true
  | String c s' => p c && all_chars p s'
  end.

(** [s.isalpha()]: every character is a letter and there is at least one. *)
Definition isalpha (s : string) : bool :=
  match s with
  | EmptyString => false
  | String _ _ => all_chars is_alpha_char s
  end.

Fixpoint lstrip (s : string) : string :=
  match s with
  | EmptyString => EmptyString
  | String c s' => if is_space_char c then lstrip s' else s
  end.

Fixpoint rstrip (s : string) : string :=
  match s with
  | EmptyString => EmptyString
  | String c s' =>
      match rstrip s' with
      | EmptyString => if is_space_char c then EmptyString else String c EmptyString
      | r => String c r
      end
  end.

(** [s.strip()] *)
Definition strip (s : string) : string := rstrip (lstrip s).

(** [len(s)] *)
Definition len (s : string) : Z := Z.of_nat (String.length s).

(** [list(s)], and the iteration [for char in s] *)
Fixpoint chars (s : string) : list string :=
  match s with
  | EmptyString => []
  | String c s' => String c EmptyString :: chars s'
  end.

(** [sub in s] on strings *)
Fixpoint contains (sub s : string) : bool :=
  String.prefix sub s ||
  match s with
  | EmptyString => false
  | String _ s' => contains sub s'
  end.

(** [sep.join(parts)] *)
Fixpoint join (sep : string) (parts : list string) : string :=
  match parts with
  | [] => EmptyString
  | [p] => p
  | p :: rest => p +:+ sep +:+ join sep rest
  end.

(** [s.split()]: the maximal runs of characters that are not white space.
    [cur] is the run being read, most recent character first. *)
Fixpoint split_go (cur : option string) (s : string) : list string :=
  match s with
  | EmptyString => option_list (String.rev <$> cur)
  | String c s' =>
      if is_space_char c
      then option_list (String.rev <$> cur) ++ split_go None s'
      else split_go (Some (String c (default EmptyString cur))) s'
  end.
Definition split : string → list string := split_go None.

Definition newline : string := String "010"%char EmptyString.

(** A multi-line literal, given by its lines. *)
Definition text_of_lines : list string → string := join newline.

End Text.

(** ** Sequences indexed by a Python [int] *)

(** [xs[i]]: a negative index counts from the end; outside
    [-len(xs) .. len(xs) - 1] the access raises [IndexError]. *)
Definition py_index {A} (kind : string) (xs : list A) (i : Z) : outcome A :=
  let n := Z.of_nat (length xs) in
  let j := (if i <? 0 then i + n else i)%Z in
  if (j <? 0)%Z then Raised (IndexError (kind +:+ " index out of range"))
  else match xs !! Z.to_nat j with
       | Some x => Returned x
       | None => Raised (IndexError (kind +:+ " index out of range"))
       end.

(** [sorted(list(s))] for a set of strings: ascending in the order of
    [str], the lexicographic order on character codes. *)
Definition sorted_list (s : gset string) : list string :=
  merge_sort String.le (elements s).

Import Text.

(** ** Static tables *)

(** [get_hangman_images()]: the ten drawings, from the empty scene to the
    complete figure.  Each is a raw multi-line literal that starts with a
    line break. *)
Definition get_hangman_images : list string :=
  [ text_of_lines [EmptyString; EmptyString; EmptyString; "    "; "    "; "    "; "====="];
    text_of_lines [EmptyString; "    +"; "    |"; "    |"; "    |"; "    |"; "    |"; "====="];
    text_of_lines [EmptyString; " +--+"; "    |"; "    |"; "    |"; "    |"; "    |"; "====="];
    text_of_lines [EmptyString; " +--+"; " |  |"; "    |"; "    |"; "    |"; "    |"; "====="];
    text_of_lines [EmptyString; " +--+"; " |  |"; " O  |"; "    |"; "    |"; "    |"; "====="];
    text_of_lines [EmptyString; " +--+"; " |  |"; " O  |"; " |  |"; "    |"; "    |"; "====="];
    text_of_lines [EmptyString; " +--+"; " |  |"; " O  |"; "/|  |"; "    |"; "    |"; "====="];
    text_of_lines [EmptyString; " +--+"; " |  |"; " O  |"; "/|\ |"; "    |"; "    |"; "====="];
    text_of_lines [EmptyString; " +--+"; " |  |"; " O  |"; "/|\ |"; "/   |"; "    |"; "====="];
    text_of_lines [EmptyString; " +--+"; " |  |"; " O  |"; "/|\ |"; "/ \ |"; "    |"; "====="] ].

(** [len(get_hangman_images())] *)
Definition images_len : Z := Z.of_nat (length get_hangman_images).

Definition animal_words : string :=
  text_of_lines
    [ EmptyString;
      "    Dog Cat Elephant Lion Tiger Giraffe Zebra Bear Koala";
      "    Panda Kangaroo Penguin Dolphin Eagle Owl Fox Wolf Cheetah";
      "    Leopard Jaguar Horse Cow Pig Sheep Goat Chicken Duck Goose";
      "    Swan Octopus Shark Whale Platypus Chimpanzee Gorilla Orangutan";
      "    Baboon Raccoon Squirrel Bat Hedgehog Armadillo Sloth Porcupine";
      "    Anteater Camel Dingo Kangaroo Rat Lemur Meerkat Ocelot Parrot";
      "    Quokka Vulture Wombat Yak Iguana jaguar Kakapo Lemming";
      "    Manatee Nutria Ostrich Pangolin Quail Rhinoceros Serval";
      "    Wallaby Coypu Tapir Pheasant";
      "    " ].

(** [word_list_dict], a dictionary with the single key [animals]. *)
Definition word_list_dict : gmap string string :=
  {[ "animals" := animal_words ]}.

(** [get_word_list(category)]: a missing key is a [KeyError], turned into
    [ValueError]. *)
Definition get_word_list (category : string) : outcome (list string) :=
  let category := lower category in
  match word_list_dict !! category with
  | Some words => Returned (upper <$> split words)
  | None => Raised (ValueError "Invalid category.")
  end.

(** [randint(a, b)] with the number drawn made explicit: the result ranges
    over exactly [a .. b] as [draw] ranges over the integers; an empty
    range raises [ValueError] (Python's message also names the bounds). *)
Definition randint (a b draw : Z) : outcome Z :=
  if (b <? a)%Z then Raised (ValueError "empty range in randrange")
  else Returned (a + draw `mod` (b - a + 1))%Z.

(** [get_secret_word()].  Only the [ValueError] of [get_word_list] is
    handled; the word is checked to be non-empty. *)
Definition get_secret_word (draw : Z) : outcome string :=
  match get_word_list "animals" with
  | Raised (ValueError _) => Raised (RuntimeError "Unable to retrieve word list.")
  | Raised e => Raised e
  | Returned words =>
      match randint 0 (Z.of_nat (length words) - 1) draw with
      | Raised e => Raised e
      | Returned i =>
          match py_index "list" words i with
          | Raised e => Raised e
          | Returned secret_word =>
              if (0 <? len secret_word)%Z then Returned secret_word
              else Raised (RuntimeError "Unable to return secret word.")
          end
      end
  end.

(** ** Game state *)

Record PuzzleLetter := mkPuzzleLetter { character : string; guessed : bool }.

Record GameState := mkGameState {
  player_name : string;
  word : string;
  current_guess : string;
  guesses : gset string;
  remaining_letters : gset string;
  puzzle : list PuzzleLetter;
  image_idx : Z;
  is_active : bool
}.

(** [GameState()], all fields at their defaults. *)
Definition GameState_new : GameState :=
  mkGameState EmptyString EmptyString EmptyString ∅ ∅ [] 0 false.

(** [set(self.word)] *)
Definition letter_set (w : string) : gset string := list_to_set (chars w).

Definition initialize_game_state (self : GameState) : GameState :=
  {| player_name := player_name self;
     word := word self;
     current_guess := current_guess self;
     guesses := guesses self;
     remaining_letters := letter_set (word self);
     puzzle := (λ char, mkPuzzleLetter char false) <$> chars (word self);
     image_idx := image_idx self;
     is_active := true |}.

Definition update_puzzle (self : GameState) : GameState :=
  {| player_name := player_name self;
     word := word self;
     current_guess := current_guess self;
     guesses := guesses self;
     remaining_letters := remaining_letters self;
     puzzle :=
       (λ pl, mkPuzzleLetter (character pl)
                (guessed pl || bool_decide (character pl = current_guess self)))
       <$> puzzle self;
     image_idx := image_idx self;
     is_active := is_active self |}.

(** [s.remove(x)]: raises [KeyError] when [x] is not a member. *)
Definition set_remove (x : string) (s : gset string) : outcome (gset string) :=
  if decide (x ∈ s) then Returned (s ∖ {[x]}) else Raised (KeyError x).

(** The [try] block removes the guess from the remaining letters and
    reveals it in the puzzle; the [KeyError] handler counts a miss. *)
Definition update_state_on_guess (self : GameState) : GameState :=
  match set_remove (current_guess self) (remaining_letters self) with
  | Returned remaining =>
      update_puzzle
        {| player_name := player_name self;
           word := word self;
           current_guess := current_guess self;
           guesses := guesses self;
           remaining_letters := remaining;
           puzzle := puzzle self;
           image_idx := image_idx self;
           is_active := is_active self |}
  | Raised _ =>
      {| player_name := player_name self;
         word := word self;
         current_guess := current_guess self;
         guesses := guesses self;
         remaining_letters := remaining_letters self;
         puzzle := puzzle self;
         image_idx := image_idx self + 1;
         is_active := is_active self |}
  end.

Definition is_game_won (self : GameState) : bool :=
  bool_decide (size (remaining_letters self) = 0).

Definition is_game_lost (self : GameState) : bool :=
  (images_len - 1 <=? image_idx self)%Z.

Definition is_game_over (self : GameState) : bool :=
  is_game_won self || is_game_lost self.

Definition get_display_word (self : GameState) : string :=
  join " " ((λ pl, if guessed pl then character pl else "_") <$> puzzle self).

Definition reset_game (self : GameState) : GameState :=
  {| player_name := player_name self;
     word := EmptyString;
     current_guess := EmptyString;
     guesses := ∅;
     remaining_letters := ∅;
     puzzle := [];
     image_idx := 0;
     is_active := false |}.

Definition set_player_name (name : string) (self : GameState) : GameState :=
  {| player_name := name;
     word := word self;
     current_guess := current_guess self;
     guesses := guesses self;
     remaining_letters := remaining_letters self;
     puzzle := puzzle self;
     image_idx := image_idx self;
     is_active := is_active self |}.

Definition set_word (w : string) (self : GameState) : GameState :=
  {| player_name := player_name self;
     word := w;
     current_guess := current_guess self;
     guesses := guesses self;
     remaining_letters := remaining_letters self;
     puzzle := puzzle self;
     image_idx := image_idx self;
     is_active := is_active self |}.

Definition set_current_guess (letter : string) (self : GameState) : GameState :=
  {| player_name := player_name self;
     word := word self;
     current_guess := letter;
     guesses := guesses self;
     remaining_letters := remaining_letters self;
     puzzle := puzzle self;
     image_idx := image_idx self;
     is_active := is_active self |}.

(** [self.guesses.add(letter)] *)
Definition add_guess (letter : string) (self : GameState) : GameState :=
  {| player_name := player_name self;
     word := word self;
     current_guess := current_guess self;
     guesses := guesses self ∪ {[letter]};
     remaining_letters := remaining_letters self;
     puzzle := puzzle self;
     image_idx := image_idx self;
     is_active := is_active self |}.

Definition set_is_active (b : bool) (self : GameState) : GameState :=
  {| player_name := player_name self;
     word := word self;
     current_guess := current_guess self;
     guesses := guesses self;
     remaining_letters := remaining_letters self;
     puzzle := puzzle self;
     image_idx := image_idx self;
     is_active := b |}.

(** ** Results of the operations *)

(** One entry of the [sessions] list of [_list_active_sessions]. *)
Record SessionSummary := mkSessionSummary {
  summary_session_id : string;
  summary_player_name : string;
  summary_active : bool;
  summary_word_length : Z;
  summary_guesses_made : Z;
  summary_game_over : bool
}.

(** The dictionaries returned by the operations, one constructor per set of
    keys, the arguments in the order of the keys.  In [Guessed] the key
    [won] is present only when the game is over ([None]: no such key); in
    [Snapshot] it is always present and [None] is Python's [None]. *)
Inductive Response :=
| Plain (status message : string)
| Started (status message : string) (word_length : Z)
    (display_word hangman_image : string) (guesses_remaining : Z)
    (session_id : string)
| Guessed (status letter : string) (correct : bool)
    (display_word hangman_image : string) (guesses_made : list string)
    (guesses_remaining : Z) (game_over : bool) (won : option bool)
    (message : string)
| Snapshot (status player_name : string) (word_length : Z)
    (display_word hangman_image : string) (guesses_made : list string)
    (guesses_remaining : Z) (game_over : bool) (won : option bool)
    (session_id : string)
| SessionList (status : string) (sessions : list SessionSummary)
    (total_sessions : Z).

(** [response["status"]] *)
Definition status_of (r : Response) : string :=
  match r with
  | Plain s _ => s
  | Started s _ _ _ _ _ _ => s
  | Guessed s _ _ _ _ _ _ _ _ _ => s
  | Snapshot s _ _ _ _ _ _ _ _ _ => s
  | SessionList s _ _ => s
  end.

(** The messages of the rejected guesses. *)
Definition msg_no_session : string := "No active game found. Start a new game first.".
Definition msg_not_active : string := "No active game. Start a new game first.".
Definition msg_already_over : string := "Game is already over. Start a new game.".
Definition msg_one_letter : string := "Please provide exactly one letter.".
Definition msg_duplicate (letter : string) : string :=
  "You've already guessed '" +:+ letter +:+ "'. Try a different letter.".

(** ** Operations on the registry *)

(** The body of [_start_hangman_game], given the outcome [secret] of its
    call [get_secret_word()].  Everything runs inside [try]; any exception
    becomes an error result, and what was written to the registry before
    the exception stays written. *)
Definition start_with (secret : outcome string) (player_name session_id : string)
    (game_sessions : gmap string GameState) : Response * gmap string GameState :=
  let game_sessions :=
    match game_sessions !! session_id with
    | Some _ => game_sessions
    | None => <[session_id := GameState_new]> game_sessions
    end in
  let game_state := default GameState_new (game_sessions !! session_id) in
  let game_state := reset_game game_state in
  let game_state := set_player_name player_name game_state in
  match secret with
  | Raised e =>
      (Plain "error" ("Failed to start game: " +:+ exception_str e),
       <[session_id := game_state]> game_sessions)
  | Returned w =>
      let game_state := set_word w game_state in
      let game_state := initialize_game_state game_state in
      let game_sessions := <[session_id := game_state]> game_sessions in
      match py_index "tuple" get_hangman_images 0 with
      | Raised e =>
          (Plain "error" ("Failed to start game: " +:+ exception_str e),
           game_sessions)
      | Returned image =>
          (Started "success"
             ("New game started for " +:+ player_name +:+ "!")
             (len (word game_state))
             (get_display_word game_state)
             image
             (images_len - 1)
             session_id,
           game_sessions)
      end
  end.

Definition _start_hangman_game (draw : Z) (player_name session_id : string)
    (game_sessions : gmap string GameState) : Response * gmap string GameState :=
  start_with (get_secret_word draw) player_name session_id game_sessions.

(** [_make_guess] has no handler: an exception of the image lookup leaves
    the function, after the state has been updated. *)
Definition _make_guess (letter session_id : string)
    (game_sessions : gmap string GameState)
  : outcome Response * gmap string GameState :=
  match game_sessions !! session_id with
  | None => (Returned (Plain "error" msg_no_session), game_sessions)
  | Some game_state =>
      if negb (is_active game_state) then
        (Returned (Plain "error" msg_not_active), game_sessions)
      else if is_game_over game_state then
        (Returned (Plain "error" msg_already_over), game_sessions)
      else
        let letter := strip (upper letter) in
        if negb (len letter =? 1)%Z || negb (isalpha letter) then
          (Returned (Plain "error" msg_one_letter), game_sessions)
        else if decide (letter ∈ guesses game_state) then
          (Returned (Plain "error" (msg_duplicate letter)), game_sessions)
        else
          let game_state := set_current_guess letter game_state in
          let game_state := add_guess letter game_state in
          let is_correct := contains letter (word game_state) in
          let game_state := update_state_on_guess game_state in
          match py_index "tuple" get_hangman_images (image_idx game_state) with
          | Raised e => (Raised e, <[session_id := game_state]> game_sessions)
          | Returned image =>
              let response game_over won message :=
                Guessed "success" letter is_correct
                  (get_display_word game_state) image
                  (sorted_list (guesses game_state))
                  (images_len - 1 - image_idx game_state)
                  game_over won message in
              if is_game_won game_state then
                (Returned (response true (Some true)
                   ("Congratulations " +:+ player_name game_state +:+
                    "! You won! The word was '" +:+ word game_state +:+ "'.")),
                 <[session_id := set_is_active false game_state]> game_sessions)
              else if is_game_lost game_state then
                (Returned (response true (Some false)
                   ("Game over " +:+ player_name game_state +:+
                    "! The word was '" +:+ word game_state +:+
                    "'. Better luck next time!")),
                 <[session_id := set_is_active false game_state]> game_sessions)
              else
                (Returned (response false None
                   (if is_correct
                    then "Good guess! '" +:+ letter +:+ "' is in the word."
                    else "Sorry, '" +:+ letter +:+ "' is not in the word.")),
                 <[session_id := game_state]> game_sessions)
          end
  end.

(** [_get_game_status] reads the registry and does not write it. *)
Definition _get_game_status (session_id : string)
    (game_sessions : gmap string GameState) : outcome Response :=
  match game_sessions !! session_id with
  | None =>
      Returned (Plain "no_game" "No game session found. Start a new game first.")
  | Some game_state =>
      if negb (is_active game_state) && negb (is_game_over game_state) then
        Returned (Plain "no_active_game" "No active game. Start a new game first.")
      else
        match py_index "tuple" get_hangman_images (image_idx game_state) with
        | Raised e => Raised e
        | Returned image =>
            Returned
              (Snapshot
                 (if is_active game_state then "active" else "finished")
                 (player_name game_state)
                 (len (word game_state))
                 (get_display_word game_state)
                 image
                 (sorted_list (guesses game_state))
                 (images_len - 1 - image_idx game_state)
                 (is_game_over game_state)
                 (if is_game_over game_state
                  then Some (is_game_won game_state) else None)
                 session_id)
        end
  end.

(** [_list_active_sessions]: one summary per entry of the registry.  The
    entries come in the order of [map_to_list]; the insertion order of the
    Python dictionary is not part of the model. *)
Definition _list_active_sessions (game_sessions : gmap string GameState) : Response :=
  let sessions :=
    (λ '(session_id, game_state),
       mkSessionSummary session_id
         (player_name game_state)
         (is_active game_state)
         (if bool_decide (word game_state = EmptyString) then 0
          else len (word game_state))
         (Z.of_nat (size (guesses game_state)))
         (is_game_over game_state))
    <$> map_to_list game_sessions in
  SessionList "success" sessions (Z.of_nat (length sessions)).

Definition _end_game (session_id : string)
    (game_sessions : gmap string GameState) : Response * gmap string GameState :=
  match game_sessions !! session_id with
  | None => (Plain "error" "No game session found.", game_sessions)
  | Some game_state =>
      let word := word game_state in
      let player_name := player_name game_state in
      (Plain "success"
         ("Game ended for " +:+ player_name +:+ ". The word was '" +:+ word +:+
          "'. Thanks for playing!"),
       delete session_id game_sessions)
  end.

(** ** The sessions as a transition system *)

Inductive operation :=
| StartGame (draw : Z) (player_name session_id : string)
| MakeGuess (letter session_id : string)
| GetStatus (session_id : string)
| ListSessions
| EndGame (session_id : string).

(** The registry after an operation. *)
Definition run (o : operation) (game_sessions : gmap string GameState)
  : gmap string GameState :=
  match o with
  | StartGame draw player_name session_id =>
      (_start_hangman_game draw player_name session_id game_sessions).2
  | MakeGuess letter session_id => (_make_guess letter session_id game_sessions).2
  | GetStatus _ => game_sessions
  | ListSessions => game_sessions
  | EndGame session_id => (_end_game session_id game_sessions).2
  end.

(** The registries of a process: empty at its start, then any sequence of
    operations. *)
Inductive reachable : gmap string GameState → Prop :=
| reachable_init : reachable ∅
| reachable_step o game_sessions :
    reachable game_sessions → reachable (run o game_sessions).

(** [run] over a list of operations, first operation first. *)
Definition run_all (os : list operation) (game_sessions : gmap string GameState)
  : gmap string GameState :=
  foldl (λ reg o, run o reg) game_sessions os.

(** ** Notions used by the statements *)

(** A word the word source can return: non-empty, capital letters only. *)
Definition is_secret (w : string) : bool :=
  (0 <? len w)%Z && all_chars is_upper_char w.

(** The words [get_secret_word] chooses from. *)
Definition word_pool : list string := upper <$> split animal_words.

(** The state after an accepted guess [letter], before the game-over check:
    lines 304 to 307 of [_make_guess]. *)
Definition apply_guess (letter : string) (gs : GameState) : GameState :=
  update_state_on_guess (add_guess letter (set_current_guess letter gs)).

(** The accepted guess counted as a miss. *)
Definition miss_counted (gs gs' : GameState) : Prop :=
  image_idx gs' = (image_idx gs + 1)%Z.

(** The accepted guess revealed at least one position of the puzzle. *)
Definition position_revealed (gs gs' : GameState) : Prop :=
  ∃ (i : nat) (c : string),
    puzzle gs !! i = Some (mkPuzzleLetter c false) ∧
    puzzle gs' !! i = Some (mkPuzzleLetter c true).

(** Every position of the puzzle is revealed. *)
Definition all_revealed (gs : GameState) : Prop :=
  Forall (λ pl, guessed pl = true) (puzzle gs).

(** What holds of every game of a reachable registry. *)
Record state_ok (gs : GameState) : Prop := mk_state_ok {
  ok_word : is_secret (word gs) = true;
  ok_remaining : remaining_letters gs = letter_set (word gs) ∖ guesses gs;
  ok_puzzle :
    puzzle gs =
    (λ c, mkPuzzleLetter c (bool_decide (c ∈ guesses gs))) <$> chars (word gs);
  ok_image : (0 ≤ image_idx gs ≤ 9)%Z;
  ok_active : is_active gs = negb (is_game_over gs);
  ok_guesses : ∀ g, g ∈ guesses gs → len g = 1%Z ∧ isalpha g = true
}.

Definition registry_ok (game_sessions : gmap string GameState) : Prop :=
  ∀ sid gs, game_sessions !! sid = Some gs → state_ok gs.

(** The letters a display string shows: its characters other than the
    separator and the placeholder. *)
Definition shown_letters (display : string) : gset string :=
  list_to_set (filter (λ c, c ≠ " " ∧ c ≠ "_") (chars display)).

(** The game-over check at the end of [_make_guess] (lines 321 to 336), as
    it acts on the state: a game that is won or lost stops being active. *)
Definition close_if_over (gs : GameState) : GameState :=
  if is_game_won gs then set_is_active false gs
  else if is_game_lost gs then set_is_active false gs
  else gs.

(** The [won] entry of the result of an accepted guess. *)
Definition verdict (gs : GameState) : option bool :=
  if is_game_won gs then Some true
  else if is_game_lost gs then Some false
  else None.

(** Position by position, the puzzle holds the letter of the secret word
    and is revealed exactly when that letter has been guessed. *)
Definition mask_matches (gs : GameState) : Prop :=
  length (puzzle gs) = String.length (word gs) ∧
  ∀ (i : nat) (c : string), chars (word gs) !! i = Some c →
    ∃ b, puzzle gs !! i = Some (mkPuzzleLetter c b) ∧ (b = true ↔ c ∈ guesses gs).

(** [response["game_over"]] and [response.get("won")] *)
Definition game_over_of (r : Response) : option bool :=
  match r with
  | Guessed _ _ _ _ _ _ _ game_over _ _ => Some game_over
  | Snapshot _ _ _ _ _ _ _ game_over _ _ => Some game_over
  | _ => None
  end.

Definition won_of (r : Response) : option bool :=
  match r with
  | Guessed _ _ _ _ _ _ _ _ won _ => won
  | Snapshot _ _ _ _ _ _ _ _ won _ => won
  | _ => None
  end.

(** The result of a guess declares the game lost. *)
Definition declares_lost (r : Response) : Prop :=
  game_over_of r = Some true ∧ won_of r = Some false.

(** The result of a guess declares the game won. *)
Definition declares_won (r : Response) : Prop :=
  game_over_of r = Some true ∧ won_of r = Some true.

(** A list with a separator between consecutive elements. *)
Fixpoint interleave {A} (sep : A) (xs : list A) : list A :=
  match xs with
  | [] => []
  | [x] => [x]
  | x :: rest => x :: sep :: interleave sep rest
  end.

(** The pieces of the display: the letter where guessed, else the
    placeholder. *)
Definition display_pieces (gs : GameState) : list string :=
  (λ c, if bool_decide (c ∈ guesses gs) then c else "_") <$> chars (word gs).

(** ** Scenarios *)

(** Alice has guessed C. *)
Definition cat_game : gmap string GameState :=
  run_all [StartGame 1 "Alice" "s"; MakeGuess "c" "s"] ∅.

Definition cat_state : GameState := default GameState_new (cat_game !! "s").

(** Alice has guessed A. *)
Definition cat_game_a : gmap string GameState :=
  run_all [StartGame 1 "Alice" "s"; MakeGuess "A" "s"] ∅.

Definition cat_state_a : GameState := default GameState_new (cat_game_a !! "s").

(** Alice has guessed C and A; T wins. *)
Definition cat_game_ca : gmap string GameState :=
  run_all [StartGame 1 "Alice" "s"; MakeGuess "C" "s"; MakeGuess "A" "s"] ∅.

Definition empty_scene : string := default EmptyString (get_hangman_images !! 0%nat).

Definition cat_win : Response :=
  Guessed "success" "T" true "C A T" empty_scene ["A"; "C"; "T"] 9 true
    (Some true) "Congratulations Alice! You won! The word was 'CAT'.".


(** ** Further notions *)

(** The session an operation addresses. *)
Definition op_session (o : operation) : option string :=
  match o with
  | StartGame _ _ session_id => Some session_id
  | MakeGuess _ session_id => Some session_id
  | GetStatus session_id => Some session_id
  | ListSessions => None
  | EndGame session_id => Some session_id
  end.

(** The display of a word of [n] letters with nothing revealed. *)
Definition masked (n : nat) : string := join " " (replicate n "_").

(** The guessed letters that do not occur in the secret word. *)
Definition wrong_guesses (gs : GameState) : gset string :=
  guesses gs ∖ letter_set (word gs).

(** The entry of [_list_active_sessions] for one session. *)
Definition summary_of (session_id : string) (gs : GameState) : SessionSummary :=
  mkSessionSummary session_id (player_name gs) (is_active gs) (len (word gs))
    (Z.of_nat (size (guesses gs))) (is_game_over gs).

(** [response["correct"]] and [response["guesses_remaining"]] *)
Definition correct_of (r : Response) : option bool :=
  match r with
  | Guessed _ _ correct _ _ _ _ _ _ _ => Some correct
  | _ => None
  end.

Definition guesses_remaining_of (r : Response) : option Z :=
  match r with
  | Started _ _ _ _ _ guesses_remaining _ => Some guesses_remaining
  | Guessed _ _ _ _ _ _ guesses_remaining _ _ _ => Some guesses_remaining
  | Snapshot _ _ _ _ _ _ guesses_remaining _ _ _ => Some guesses_remaining
  | _ => None
  end.

(** Two sessions: Alice plays CAT in session s, Bob plays DOG in session t
    and has guessed O. *)
Definition two_games : gmap string GameState :=
  run_all [StartGame 1 "Alice" "s"; StartGame 0 "Bob" "t"; MakeGuess "o" "t"] ∅.

(** Alice has guessed C, A and T, and has won. *)
Definition cat_game_won : gmap string GameState :=
  run_all [StartGame 1 "Alice" "s"; MakeGuess "C" "s"; MakeGuess "A" "s";
           MakeGuess "T" "s"] ∅.

Definition cat_state_won : GameState :=
  default GameState_new (cat_game_won !! "s").

(** ** Text and table lemmas *)

Lemma images_len_eq : images_len = 10%Z.
Proof. reflexivity. Qed.

Lemma image_lookup (i : Z) :
  (0 ≤ i ≤ 9)%Z → ∃ image, py_index "tuple" get_hangman_images i = Returned image.
Proof.
  intros Hi. unfold py_index.
  destruct (Z.ltb_spec i 0) as [?|_]; [lia|].
  destruct (Z.ltb_spec i 0) as [?|_]; [lia|].
  destruct (lookup_lt_is_Some_2 get_hangman_images (Z.to_nat i)) as [image ->].
  - change (length get_hangman_images) with 10%nat. lia.
  - by exists image.
Qed.

Lemma word_pool_secret : Forall (λ w, is_secret w = true) word_pool.
Proof.
  apply Forall_forall. intros w Hw%list_elem_of_In. revert w Hw.
  apply forallb_forall. vm_compute. reflexivity.
Qed.

Lemma get_word_list_animals : get_word_list "animals" = Returned word_pool.
Proof. vm_compute. reflexivity. Qed.

(** With the built-in table the word source cannot fail. *)
Lemma get_secret_word_returns (draw : Z) :
  ∃ w, get_secret_word draw = Returned w ∧ w ∈ word_pool.
Proof.
  unfold get_secret_word. rewrite get_word_list_animals.
  assert (Hlen : length word_pool = 72%nat) by (vm_compute; reflexivity).
  rewrite Hlen. change (Z.of_nat 72 - 1)%Z with 71%Z. unfold randint.
  destruct (Z.ltb_spec 71 0) as [?|_]; [lia|].
  set (i := (0 + draw `mod` (71 - 0 + 1))%Z).
  assert (Hi : (0 ≤ i < 72)%Z).
  { subst i. pose proof (Z.mod_pos_bound draw (71 - 0 + 1)). lia. }
  unfold py_index. rewrite Hlen.
  destruct (Z.ltb_spec i 0) as [?|_]; [lia|].
  destruct (Z.ltb_spec i 0) as [?|_]; [lia|].
  destruct (lookup_lt_is_Some_2 word_pool (Z.to_nat i)) as [w Hw]; [lia|].
  rewrite Hw.
  assert (Hin : w ∈ word_pool) by (eapply list_elem_of_lookup_2; exact Hw).
  pose proof (proj1 (Forall_forall _ _) word_pool_secret w Hin) as Hs.
  unfold is_secret in Hs. apply andb_true_iff in Hs as [-> _].
  by exists w.
Qed.

Lemma chars_length (s : string) : length (chars s) = String.length s.
Proof. induction s as [|a s IH]; simpl; [done | by rewrite IH]. Qed.

Lemma len_one (s : string) :
  len s = 1%Z → ∃ a, s = String a EmptyString.
Proof.
  unfold len. destruct s as [|a [|b s]]; simpl; try lia. by exists a.
Qed.

Lemma elem_of_letter_set (c w : string) : c ∈ letter_set w ↔ c ∈ chars w.
Proof. unfold letter_set. apply elem_of_list_to_set. Qed.

(** For one character, [letter in word] is membership in the letters. *)
Lemma contains_char (a : ascii) (w : string) :
  contains (String a EmptyString) w = true ↔ String a EmptyString ∈ chars w.
Proof.
  induction w as [|b w IH]; simpl.
  - split; [done | by intros ?%elem_of_nil].
  - rewrite orb_true_iff, IH, elem_of_cons.
    destruct (ascii_dec a b) as [->|Hne].
    + split; [by left | intros _; left]. destruct w; done.
    + split.
      * intros [H|H]; [|by right]. destruct w; done.
      * intros [[=]|H]; [done | by right].
Qed.

Lemma is_secret_nonempty (w : string) :
  is_secret w = true → ∃ a s, w = String a s.
Proof.
  destruct w as [|a s]; [done | by exists a, s].
Qed.

Lemma letter_set_nonempty (w : string) :
  is_secret w = true → size (letter_set w) ≠ 0%nat.
Proof.
  intros (a & s & ->)%is_secret_nonempty Hsz.
  apply size_empty_inv in Hsz.
  assert (String a EmptyString ∈ letter_set (String a s)) as Hin.
  { apply elem_of_letter_set. simpl. by left. }
  by apply Hsz in Hin.
Qed.

(** ** The accepted guess *)

Lemma apply_guess_hit (l : string) (gs : GameState) :
  l ∈ remaining_letters gs →
  apply_guess l gs =
  {| player_name := player_name gs;
     word := word gs;
     current_guess := l;
     guesses := guesses gs ∪ {[l]};
     remaining_letters := remaining_letters gs ∖ {[l]};
     puzzle :=
       (λ pl, mkPuzzleLetter (character pl)
                (guessed pl || bool_decide (character pl = l))) <$> puzzle gs;
     image_idx := image_idx gs;
     is_active := is_active gs |}.
Proof.
  intros Hin. unfold apply_guess, update_state_on_guess, set_remove. simpl.
  by rewrite decide_True.
Qed.

Lemma apply_guess_miss (l : string) (gs : GameState) :
  l ∉ remaining_letters gs →
  apply_guess l gs =
  {| player_name := player_name gs;
     word := word gs;
     current_guess := l;
     guesses := guesses gs ∪ {[l]};
     remaining_letters := remaining_letters gs;
     puzzle := puzzle gs;
     image_idx := image_idx gs + 1;
     is_active := is_active gs |}.
Proof.
  intros Hin. unfold apply_guess, update_state_on_guess, set_remove. simpl.
  by rewrite decide_False.
Qed.

Lemma is_game_lost_iff (gs : GameState) :
  is_game_lost gs = true ↔ (9 ≤ image_idx gs)%Z.
Proof. unfold is_game_lost. rewrite images_len_eq. apply Z.leb_le. Qed.

Lemma is_game_won_iff (gs : GameState) :
  is_game_won gs = true ↔ remaining_letters gs = ∅.
Proof.
  unfold is_game_won. rewrite bool_decide_eq_true, size_empty_iff.
  by unfold_leibniz.
Qed.

Lemma state_ok_start (player w : string) (gs0 : GameState) :
  is_secret w = true →
  state_ok (initialize_game_state
              (set_word w (set_player_name player (reset_game gs0)))).
Proof.
  intros Hw. split; simpl.
  - done.
  - set_solver.
  - apply list_fmap_ext. intros i c _. by rewrite bool_decide_eq_false_2 by set_solver.
  - lia.
  - unfold is_game_over, is_game_won, is_game_lost. simpl.
    rewrite bool_decide_eq_false_2 by (by apply letter_set_nonempty).
    by rewrite images_len_eq.
  - set_solver.
Qed.

(** Lines 304 to 307 keep everything the invariant says, except the link
    between [is_active] and the end of the game, restored by the check that
    follows. *)
Lemma state_ok_apply_guess (l : string) (gs : GameState) :
  state_ok gs → is_game_over gs = false →
  len l = 1%Z → isalpha l = true → l ∉ guesses gs →
  let gs' := apply_guess l gs in
  is_secret (word gs') = true ∧
  remaining_letters gs' = letter_set (word gs') ∖ guesses gs' ∧
  puzzle gs' =
    ((λ c, mkPuzzleLetter c (bool_decide (c ∈ guesses gs'))) <$> chars (word gs')) ∧
  (0 ≤ image_idx gs' ≤ 9)%Z ∧
  (∀ g, g ∈ guesses gs' → len g = 1%Z ∧ isalpha g = true).
Proof.
  intros [Hw Hrem Hpuz Himg Hact Hgs] Hover Hlen Halpha Hnew gs'.
  apply orb_false_iff in Hover as [_ Hlost].
  assert (image_idx gs < 9)%Z as Hlt.
  { destruct (is_game_lost gs) eqn:E; [done|].
    destruct (Z.le_gt_cases 9 (image_idx gs)) as [H9|?]; [|lia].
    apply is_game_lost_iff in H9. congruence. }
  subst gs'. destruct (decide (l ∈ remaining_letters gs)) as [Hin|Hin].
  - rewrite (apply_guess_hit l gs Hin). simpl.
    split; [done|]. split; [rewrite Hrem; set_solver|].
    split; [|split; [lia|]].
    + rewrite Hpuz, <- list_fmap_compose. apply list_fmap_ext.
      intros i c _. simpl. f_equal.
      apply eq_true_iff_eq. rewrite orb_true_iff, !bool_decide_eq_true. set_solver.
    + intros g [?| ->%elem_of_singleton]%elem_of_union; auto.
  - rewrite (apply_guess_miss l gs Hin). simpl.
    split; [done|]. split; [rewrite Hrem in *; set_solver|].
    split; [|split; [lia|]].
    + rewrite Hpuz. apply list_fmap_ext. intros i c Hc. f_equal.
      apply list_elem_of_lookup_2, elem_of_letter_set in Hc.
      apply bool_decide_ext. rewrite Hrem in Hin. set_solver.
    + intros g [?| ->%elem_of_singleton]%elem_of_union; auto.
Qed.

Lemma close_if_over_fields (gs : GameState) :
  word (close_if_over gs) = word gs ∧
  guesses (close_if_over gs) = guesses gs ∧
  remaining_letters (close_if_over gs) = remaining_letters gs ∧
  puzzle (close_if_over gs) = puzzle gs ∧
  image_idx (close_if_over gs) = image_idx gs ∧
  player_name (close_if_over gs) = player_name gs ∧
  is_active (close_if_over gs) = (is_active gs && negb (is_game_over gs)).
Proof.
  unfold close_if_over, is_game_over.
  destruct (is_game_won gs), (is_game_lost gs); simpl;
    repeat split; by rewrite ?andb_true_r, ?andb_false_r.
Qed.

Lemma state_ok_close (l : string) (gs : GameState) :
  state_ok gs → is_active gs = true →
  len l = 1%Z → isalpha l = true → l ∉ guesses gs →
  state_ok (close_if_over (apply_guess l gs)).
Proof.
  intros Hok Hact Hlen Halpha Hnew.
  assert (is_game_over gs = false) as Hover.
  { rewrite (ok_active gs Hok) in Hact. by destruct (is_game_over gs). }
  destruct (state_ok_apply_guess l gs Hok Hover Hlen Halpha Hnew)
    as (Hw & Hrem & Hpuz & Himg & Hgs).
  destruct (close_if_over_fields (apply_guess l gs))
    as (Ew & Eg & Er & Ep & Ei & _ & Ea).
  assert (is_active (apply_guess l gs) = true) as Hact'.
  { destruct (decide (l ∈ remaining_letters gs)) as [Hin|Hin];
      [rewrite (apply_guess_hit l gs Hin) | rewrite (apply_guess_miss l gs Hin)];
      done. }
  split.
  - by rewrite Ew.
  - by rewrite Er, Ew, Eg.
  - by rewrite Ep, Ew, Eg.
  - by rewrite Ei.
  - rewrite Ea, Hact'. unfold is_game_over, is_game_won, is_game_lost.
    by rewrite Er, Ei.
  - by rewrite Eg.
Qed.

(** An accepted guess, on a game that satisfies the invariant: the image
    lookup succeeds, the result is a success and the registry holds the
    updated game. *)
Lemma make_guess_accepted (letter sid : string)
    (reg : gmap string GameState) (gs : GameState) :
  reg !! sid = Some gs → state_ok gs → is_active gs = true →
  len (strip (upper letter)) = 1%Z → isalpha (strip (upper letter)) = true →
  strip (upper letter) ∉ guesses gs →
  let l := strip (upper letter) in
  let gs' := apply_guess l gs in
  ∃ image message,
    _make_guess letter sid reg =
    (Returned (Guessed "success" l (contains l (word gs))
                 (get_display_word gs') image (sorted_list (guesses gs'))
                 (images_len - 1 - image_idx gs')
                 (is_game_over gs') (verdict gs') message),
     <[sid := close_if_over gs']> reg).
Proof.
  intros Hreg Hok Hact Hlen Halpha Hnew l gs'.
  assert (is_game_over gs = false) as Hover.
  { rewrite (ok_active gs Hok) in Hact. by destruct (is_game_over gs). }
  destruct (state_ok_apply_guess l gs Hok Hover Hlen Halpha Hnew)
    as (_ & _ & _ & Himg & _).
  destruct (image_lookup _ Himg) as [image Himage].
  unfold _make_guess. rewrite Hreg, Hact, Hover. simpl negb. cbv iota.
  rewrite Hlen, Halpha. simpl orb. cbv iota. rewrite decide_False by done.
  fold l. fold (apply_guess l gs). fold gs'. fold gs' in Himage. rewrite Himage.
  change (word (add_guess l (set_current_guess l gs))) with (word gs).
  unfold close_if_over, verdict, is_game_over.
  destruct (is_game_won gs'); [by eexists _, _|].
  destruct (is_game_lost gs'); by eexists _, _.
Qed.

(** Every call of [_make_guess] on a registry that satisfies the invariant
    is either rejected, with an error result and the registry as it was, or
    is an accepted guess. *)
Lemma make_guess_cases (letter sid : string) (reg : gmap string GameState) :
  registry_ok reg →
  (∃ msg, _make_guess letter sid reg = (Returned (Plain "error" msg), reg)) ∨
  (∃ gs image message,
      reg !! sid = Some gs ∧ is_active gs = true ∧
      len (strip (upper letter)) = 1%Z ∧
      isalpha (strip (upper letter)) = true ∧
      (strip (upper letter) ∉ guesses gs) ∧
      let l := strip (upper letter) in
      let gs' := apply_guess l gs in
      _make_guess letter sid reg =
      (Returned (Guessed "success" l (contains l (word gs))
                   (get_display_word gs') image (sorted_list (guesses gs'))
                   (images_len - 1 - image_idx gs')
                   (is_game_over gs') (verdict gs') message),
       <[sid := close_if_over gs']> reg)).
Proof.
  intros Hreg. destruct (reg !! sid) as [gs|] eqn:Hgs.
  2: { left. unfold _make_guess. rewrite Hgs. by eexists. }
  destruct (is_active gs) eqn:Hact.
  2: { left. unfold _make_guess. rewrite Hgs, Hact. by eexists. }
  destruct (Z.eqb_spec (len (strip (upper letter))) 1) as [Hlen|Hlen].
  2: { left. unfold _make_guess. rewrite Hgs, Hact. simpl.
       destruct (is_game_over gs); [by eexists|].
       destruct (Z.eqb_spec (len (strip (upper letter))) 1); [done|].
       by eexists. }
  destruct (isalpha (strip (upper letter))) eqn:Halpha.
  2: { left. unfold _make_guess. rewrite Hgs, Hact, Halpha. simpl.
       destruct (is_game_over gs); [by eexists|]. rewrite orb_true_r.
       by eexists. }
  destruct (decide (strip (upper letter) ∈ guesses gs)) as [Hdup|Hnew].
  { left. unfold _make_guess. rewrite Hgs, Hact, Hlen, Halpha. simpl.
    destruct (is_game_over gs); [by eexists|]. rewrite decide_True by done.
    by eexists. }
  right.
  destruct (make_guess_accepted letter sid reg gs Hgs (Hreg _ _ Hgs)
              Hact Hlen Halpha Hnew) as (image & message & E).
  by exists gs, image, message.
Qed.

Lemma start_with_returned (w player sid : string) (reg : gmap string GameState) :
  (start_with (Returned w) player sid reg).2 =
  <[sid := initialize_game_state
             (set_word w (set_player_name player
                (reset_game (default GameState_new (reg !! sid)))))]> reg.
Proof.
  unfold start_with.
  destruct (py_index "tuple" get_hangman_images 0);
    destruct (reg !! sid) as [gs|] eqn:Hgs; simpl;
    rewrite ?Hgs, ?lookup_insert_eq, ?insert_insert_eq; done.
Qed.

Lemma start_with_raised (e : exception) (player sid : string)
    (reg : gmap string GameState) :
  start_with (Raised e) player sid reg =
  (Plain "error" ("Failed to start game: " +:+ exception_str e),
   <[sid := set_player_name player
              (reset_game (default GameState_new (reg !! sid)))]> reg).
Proof.
  unfold start_with.
  destruct (reg !! sid) as [gs|] eqn:Hgs; simpl;
    rewrite ?Hgs, ?lookup_insert_eq, ?insert_insert_eq; done.
Qed.

Lemma registry_ok_insert (sid : string) (gs : GameState)
    (reg : gmap string GameState) :
  registry_ok reg → state_ok gs → registry_ok (<[sid := gs]> reg).
Proof.
  intros Hreg Hgs sid' gs'. rewrite lookup_insert.
  case_decide; [by intros [= <-] | apply Hreg].
Qed.

Lemma registry_ok_run (o : operation) (reg : gmap string GameState) :
  registry_ok reg → registry_ok (run o reg).
Proof.
  intros Hreg. destruct o as [draw player sid|letter sid|sid| |sid]; simpl;
    try done.
  - unfold _start_hangman_game.
    destruct (get_secret_word_returns draw) as (w & -> & Hw).
    rewrite start_with_returned. apply registry_ok_insert; [done|].
    apply state_ok_start.
    exact (proj1 (Forall_forall _ _) word_pool_secret w Hw).
  - destruct (make_guess_cases letter sid reg Hreg)
      as [[msg ->]|(gs & image & message & Hgs & Hact & Hlen & Halpha & Hnew & E)];
      [done|].
    simpl in E. rewrite E. simpl.
    apply registry_ok_insert; [done|].
    by apply state_ok_close; [apply (Hreg _ _ Hgs)|..].
  - unfold _end_game. destruct (reg !! sid) eqn:Hgs; simpl; [|done].
    intros sid' gs'. rewrite lookup_delete.
    case_decide; [done | apply Hreg].
Qed.

Lemma reachable_ok (reg : gmap string GameState) :
  reachable reg → registry_ok reg.
Proof.
  induction 1 as [|o reg _ IH]; [|by apply registry_ok_run].
  intros sid gs. by rewrite lookup_empty.
Qed.

Lemma reachable_run_all (os : list operation) (reg : gmap string GameState) :
  reachable reg → reachable (run_all os reg).
Proof.
  revert reg. induction os as [|o os IH]; intros reg Hreg; [done|].
  simpl. apply IH. by constructor.
Qed.

(** ** Effect of an accepted guess on the miss count and the puzzle *)

Lemma hit_reveals (l : string) (gs : GameState) :
  state_ok gs → l ∉ guesses gs → l ∈ remaining_letters gs →
  position_revealed gs (apply_guess l gs).
Proof.
  intros Hok Hnew Hin. rewrite (apply_guess_hit l gs Hin).
  rewrite (ok_remaining gs Hok) in Hin.
  apply elem_of_difference in Hin as [Hin _].
  apply elem_of_letter_set, list_elem_of_lookup_1 in Hin as [i Hi].
  exists i, l. simpl. rewrite list_lookup_fmap, (ok_puzzle gs Hok), list_lookup_fmap, Hi.
  simpl. rewrite bool_decide_eq_false_2, bool_decide_eq_true_2 by done. done.
Qed.

Lemma same_puzzle_reveals_nothing (gs gs' : GameState) :
  puzzle gs' = puzzle gs → ¬ position_revealed gs gs'.
Proof. intros E (i & c & H1 & H2). rewrite E in H2. congruence. Qed.

(** The flag [correct] of the result, [letter in word], says which of the
    two effects the accepted guess has. *)
Lemma correct_iff_remaining (l : string) (gs : GameState) :
  state_ok gs → len l = 1%Z → l ∉ guesses gs →
  contains l (word gs) = true ↔ l ∈ remaining_letters gs.
Proof.
  intros Hok [a ->]%len_one Hnew.
  rewrite contains_char, <- elem_of_letter_set, (ok_remaining gs Hok).
  set_solver.
Qed.

(** C1.  An accepted guess (a registered, active game; a guess that is one
    letter after normalisation and was not guessed before) is answered with
    success and has exactly one of two effects on the game: the miss count
    [image_idx] grows by one and the puzzle is unchanged, or some position of
    the puzzle turns from hidden to revealed and the miss count is
    unchanged.  Never both, never neither. *)
Theorem guess_has_exactly_one_effect
    (reg : gmap string GameState) (sid letter : string) (gs : GameState) :
  reachable reg → reg !! sid = Some gs → is_active gs = true →
  len (strip (upper letter)) = 1%Z → isalpha (strip (upper letter)) = true →
  strip (upper letter) ∉ guesses gs →
  ∃ r gs',
    (_make_guess letter sid reg).1 = Returned r ∧ status_of r = "success" ∧
    (_make_guess letter sid reg).2 !! sid = Some gs' ∧
    ((miss_counted gs gs' ∧ ¬ position_revealed gs gs' ∧ puzzle gs' = puzzle gs) ∨
     (position_revealed gs gs' ∧ ¬ miss_counted gs gs' ∧ image_idx gs' = image_idx gs)).
Proof.
  intros Hreach Hgs Hact Hlen Halpha Hnew.
  pose proof (reachable_ok reg Hreach sid gs Hgs) as Hok.
  destruct (make_guess_accepted letter sid reg gs Hgs Hok Hact Hlen Halpha Hnew)
    as (image & message & ->).
  set (l := strip (upper letter)) in *.
  destruct (close_if_over_fields (apply_guess l gs))
    as (_ & _ & _ & Ep & Ei & _ & _).
  eexists _, (close_if_over (apply_guess l gs)). simpl.
  split; [done|]. split; [done|]. split; [by rewrite lookup_insert_eq|].
  unfold miss_counted, position_revealed. rewrite Ep, Ei.
  destruct (decide (l ∈ remaining_letters gs)) as [Hin|Hin].
  - right. split; [by apply hit_reveals|].
    rewrite (apply_guess_hit l gs Hin). simpl. lia.
  - left. rewrite (apply_guess_miss l gs Hin). simpl.
    split; [done|]. split; [|done]. by apply same_puzzle_reveals_nothing.
Qed.

(** ** The puzzle mirrors the guesses *)

Lemma state_ok_mask (gs : GameState) : state_ok gs → mask_matches gs.
Proof.
  intros Hok. split.
  - by rewrite (ok_puzzle gs Hok), length_fmap, chars_length.
  - intros i c Hc. exists (bool_decide (c ∈ guesses gs)).
    rewrite (ok_puzzle gs Hok), list_lookup_fmap, Hc. simpl.
    split; [done | apply bool_decide_eq_true].
Qed.

(** C3.  In every reachable registry every game satisfies the invariant:
    position [i] of the puzzle carries letter [i] of the secret word and is
    marked guessed if and only if that letter is in [guesses].  The
    invariant therefore holds after a start and after any further start,
    guess, status, list or end operation. *)
Theorem revealed_iff_guessed (reg : gmap string GameState) :
  reachable reg →
  (∀ sid gs, reg !! sid = Some gs → mask_matches gs) ∧
  (∀ o sid gs, run o reg !! sid = Some gs → mask_matches gs).
Proof.
  intros Hreach. split.
  - intros sid gs Hgs. apply state_ok_mask. by apply (reachable_ok reg Hreach sid).
  - intros o sid gs Hgs. apply state_ok_mask.
    apply (reachable_ok (run o reg) (reachable_step o reg Hreach) sid gs Hgs).
Qed.

(** ** The miss count and the loss *)

Lemma active_not_over (gs : GameState) :
  state_ok gs → is_active gs = true → is_game_over gs = false.
Proof.
  intros Hok Hact. rewrite (ok_active gs Hok) in Hact.
  by destruct (is_game_over gs).
Qed.

(** An accepted guess that brings the miss count to nine does not win. *)
Lemma ninth_miss_not_won (l : string) (gs : GameState) :
  state_ok gs → is_active gs = true →
  image_idx (apply_guess l gs) = 9%Z → is_game_won (apply_guess l gs) = false.
Proof.
  intros Hok Hact H9.
  apply (active_not_over gs Hok) in Hact. apply orb_false_iff in Hact as [Hwon Hlost].
  destruct (decide (l ∈ remaining_letters gs)) as [Hin|Hin].
  - rewrite (apply_guess_hit l gs Hin) in H9. simpl in H9.
    assert (is_game_lost gs = true) by (apply is_game_lost_iff; lia). congruence.
  - by rewrite (apply_guess_miss l gs Hin).
Qed.

(** C4.  In every reachable registry the miss count [image_idx] of every game
    lies between 0 and 9; the game counts as lost exactly when the count is
    9, and is then not active.  A successful guess declares the loss
    ([game_over] true, [won] false) if and only if it brings the count to
    exactly 9, and the game it leaves is then not active. *)
Theorem miss_count_bounded_loss_at_nine
    (reg : gmap string GameState) (sid : string) (gs : GameState) :
  reachable reg → reg !! sid = Some gs →
  (0 ≤ image_idx gs ≤ 9)%Z ∧
  (is_game_lost gs = true ↔ image_idx gs = 9%Z) ∧
  (image_idx gs = 9%Z → is_active gs = false) ∧
  ∀ letter r,
    (_make_guess letter sid reg).1 = Returned r → status_of r = "success" →
    ∃ gs', (_make_guess letter sid reg).2 !! sid = Some gs' ∧
           (image_idx gs ≤ image_idx gs' ≤ image_idx gs + 1)%Z ∧
           (declares_lost r ↔ image_idx gs' = 9%Z) ∧
           (image_idx gs' = 9%Z → is_active gs' = false).
Proof.
  intros Hreach Hgs.
  pose proof (reachable_ok reg Hreach) as Hreg.
  pose proof (Hreg sid gs Hgs) as Hok.
  pose proof (ok_image gs Hok) as Himg.
  assert (Hnine : ∀ g, state_ok g → image_idx g = 9%Z → is_active g = false).
  { intros g Hg H9. rewrite (ok_active g Hg). unfold is_game_over.
    rewrite (proj2 (is_game_lost_iff g)) by lia. by rewrite orb_true_r. }
  split; [done|]. split; [rewrite is_game_lost_iff; lia|]. split; [by apply Hnine|].
  intros letter r Hr Hs.
  destruct (make_guess_cases letter sid reg Hreg)
    as [[msg E]|(gs0 & image & message & Hgs0 & Hact & Hlen & Halpha & Hnew & E)].
  { rewrite E in Hr. simpl in Hr. by injection Hr as <-. }
  simpl in E. rewrite E in Hr |- *. simpl in Hr |- *. injection Hr as <-.
  assert (gs0 = gs) as -> by congruence.
  set (l := strip (upper letter)) in *. set (gs' := apply_guess l gs) in *.
  pose proof (state_ok_close l gs Hok Hact Hlen Halpha Hnew) as Hok'. fold gs' in Hok'.
  destruct (close_if_over_fields gs') as (_ & _ & _ & _ & Ei & _ & _).
  pose proof (ok_image _ Hok') as Himg'. rewrite Ei in Himg'.
  exists (close_if_over gs'). rewrite lookup_insert_eq.
  split; [done|]. rewrite Ei. split; [|split].
  - subst gs'. destruct (decide (l ∈ remaining_letters gs)) as [Hin|Hin];
      [rewrite (apply_guess_hit l gs Hin) | rewrite (apply_guess_miss l gs Hin)];
      simpl; lia.
  - unfold declares_lost. cbn [game_over_of won_of].
    unfold verdict, is_game_over. split.
    + intros [_ Hv]. destruct (is_game_won gs'); [done|].
      destruct (is_game_lost gs') eqn:Hl; [|done].
      apply is_game_lost_iff in Hl. lia.
    + intros H9.
      assert (is_game_won gs' = false) as -> by (by apply ninth_miss_not_won).
      by rewrite (proj2 (is_game_lost_iff gs')) by lia.
  - intros H9. apply Hnine; [done | by rewrite Ei].
Qed.

(** ** The image lookups *)

Lemma status_returns (sid : string) (reg : gmap string GameState) :
  registry_ok reg → ∃ r, _get_game_status sid reg = Returned r.
Proof.
  intros Hreg. unfold _get_game_status.
  destruct (reg !! sid) as [gs|] eqn:Hgs; [|by eexists].
  destruct (negb (is_active gs) && negb (is_game_over gs)); [by eexists|].
  destruct (image_lookup _ (ok_image gs (Hreg _ _ Hgs))) as [image ->].
  by eexists.
Qed.

(** C9.  There are exactly ten drawings, and in every reachable registry
    the [image_idx] of every game lies between 0 and 9, so the lookup
    [get_hangman_images()[image_idx]] finds a drawing and neither the guess
    nor the status operation raises. *)
Theorem image_lookup_never_fails (reg : gmap string GameState) :
  reachable reg →
  length get_hangman_images = 10%nat ∧
  (∀ sid gs, reg !! sid = Some gs →
     (0 ≤ image_idx gs ≤ 9)%Z ∧
     ∃ image, py_index "tuple" get_hangman_images (image_idx gs) = Returned image) ∧
  (∀ letter sid, ∃ r, (_make_guess letter sid reg).1 = Returned r) ∧
  (∀ sid, ∃ r, _get_game_status sid reg = Returned r).
Proof.
  intros Hreach. pose proof (reachable_ok reg Hreach) as Hreg.
  split; [reflexivity|]. split; [|split].
  - intros sid gs Hgs. pose proof (ok_image gs (Hreg _ _ Hgs)) as Himg.
    split; [done | by apply image_lookup].
  - intros letter sid.
    destruct (make_guess_cases letter sid reg Hreg)
      as [[msg ->]|(gs & image & message & _ & _ & _ & _ & _ & E)];
      [by eexists|].
    simpl in E. rewrite E. by eexists.
  - intros sid. by apply status_returns.
Qed.

(** ** The display string *)

Lemma interleave_cons {A} (sep x y : A) (xs : list A) :
  interleave sep (x :: y :: xs) = x :: sep :: interleave sep (y :: xs).
Proof. done. Qed.

Lemma length_interleave {A} (sep : A) (xs : list A) :
  xs ≠ [] → length (interleave sep xs) = (2 * length xs - 1)%nat.
Proof.
  induction xs as [|x [|y xs] IH]; intros Hne; [done | done |].
  rewrite interleave_cons. simpl length in *. rewrite IH by done. lia.
Qed.

Lemma lookup_interleave_even {A} (sep : A) (xs : list A) (i : nat) :
  interleave sep xs !! (2 * i)%nat = xs !! i.
Proof.
  revert i. induction xs as [|x [|y xs] IH]; intros i.
  - by rewrite !lookup_nil.
  - destruct i as [|i]; [done|].
    replace (2 * S i)%nat with (S (S (2 * i))) by lia. done.
  - destruct i as [|i]; [done|]. rewrite interleave_cons.
    replace (2 * S i)%nat with (S (S (2 * i))) by lia. apply IH.
Qed.

Lemma lookup_interleave_odd {A} (sep : A) (xs : list A) (i : nat) :
  (S i < length xs)%nat → interleave sep xs !! (2 * i + 1)%nat = Some sep.
Proof.
  revert i. induction xs as [|x [|y xs] IH]; intros i Hi; simpl in Hi; [lia..|].
  rewrite interleave_cons. destruct i as [|i]; [done|].
  replace (2 * S i + 1)%nat with (S (S (2 * i + 1))) by lia.
  apply IH. simpl. lia.
Qed.

Lemma elem_of_interleave {A} (sep : A) (xs : list A) (x : A) :
  x ∈ interleave sep xs → x = sep ∨ x ∈ xs.
Proof.
  induction xs as [|y [|z xs] IH]; [by intros ?%elem_of_nil | by right |].
  rewrite interleave_cons.
  intros [->|[->|H]%elem_of_cons]%elem_of_cons.
  - right. by left.
  - by left.
  - destruct (IH H) as [->|?]; [by left | right; by right].
Qed.

Lemma elem_of_interleave_2 {A} (sep : A) (xs : list A) (x : A) :
  x ∈ xs → x ∈ interleave sep xs.
Proof.
  intros [i Hi]%list_elem_of_lookup_1.
  apply (list_elem_of_lookup_2 _ (2 * i)). by rewrite lookup_interleave_even.
Qed.

Lemma chars_app (s t : string) : chars (s +:+ t) = chars s ++ chars t.
Proof. induction s as [|a s IH]; [done|]. simpl. by rewrite <- IH. Qed.

(** The characters of one-character strings joined by a one-character
    separator. *)
Lemma chars_join (sep : ascii) (ps : list string) :
  Forall (λ p, ∃ a, p = String a EmptyString) ps →
  chars (join (String sep EmptyString) ps) = interleave (String sep EmptyString) ps.
Proof.
  induction ps as [|p [|q ps] IH]; intros Hps; [done| |].
  - apply Forall_cons in Hps as [[a ->] _]. done.
  - apply Forall_cons in Hps as [[a ->] Hps].
    rewrite interleave_cons. change (join ?s (?x :: q :: ps)) with
      (x +:+ s +:+ join s (q :: ps)).
    rewrite !chars_app, IH by done. done.
Qed.

Lemma string_length_chars (s : string) : len s = Z.of_nat (length (chars s)).
Proof. unfold len. by rewrite chars_length. Qed.

(** The letters of a secret word are capitals, so neither the separator
    nor the placeholder. *)
Lemma secret_chars (w c : string) :
  is_secret w = true → c ∈ chars w →
  (∃ a, c = String a EmptyString) ∧ c ≠ " " ∧ c ≠ "_".
Proof.
  unfold is_secret. intros [_ Hup]%andb_true_iff.
  induction w as [|a w IH]; simpl in *; [by intros ?%elem_of_nil|].
  apply andb_true_iff in Hup as [Ha Hup].
  intros [->|Hc]%elem_of_cons; [|by apply IH].
  split; [by exists a|]. split; intros [= ->]; done.
Qed.

Lemma display_chars (gs : GameState) :
  state_ok gs →
  chars (get_display_word gs) = interleave " " (display_pieces gs).
Proof.
  intros Hok. unfold get_display_word. rewrite (ok_puzzle gs Hok).
  rewrite <- list_fmap_compose.
  change (String.String " " EmptyString) with (String " "%char EmptyString).
  rewrite chars_join; [done|].
  apply Forall_fmap, Forall_forall. intros c Hc. simpl.
  destruct (secret_chars _ _ (ok_word gs Hok) Hc) as [[a ->] _].
  case_bool_decide; by eexists.
Qed.

Lemma shown_letters_eq (gs : GameState) :
  state_ok gs →
  shown_letters (get_display_word gs) = guesses gs ∩ letter_set (word gs).
Proof.
  intros Hok. unfold shown_letters. rewrite (display_chars gs Hok).
  apply set_eq. intros x.
  rewrite elem_of_list_to_set, list_elem_of_filter, elem_of_intersection,
    elem_of_letter_set.
  unfold display_pieces. split.
  - intros [[Hsp Hph] Hx]. apply elem_of_interleave in Hx as [->|Hx]; [done|].
    apply list_elem_of_fmap in Hx as (c & -> & Hc).
    case_bool_decide; done.
  - intros [Hg Hx]. destruct (secret_chars _ _ (ok_word gs Hok) Hx) as (_ & ? & ?).
    split; [done|]. apply elem_of_interleave_2, list_elem_of_fmap.
    exists x. by rewrite bool_decide_eq_true_2.
Qed.

(** C5.  For every game of a reachable registry (its secret word has
    [n >= 1] letters) the display string has length [2 * n - 1]; its
    character at position [2 * i] is the character of puzzle position [i]
    when that position is revealed and the placeholder [_] otherwise, which
    is letter [i] of the secret word exactly when that letter has been
    guessed; the characters between are single spaces; and the letters it
    shows are exactly the guessed letters that occur in the secret word. *)
Theorem display_word_shape
    (reg : gmap string GameState) (sid : string) (gs : GameState) :
  reachable reg → reg !! sid = Some gs →
  let d := get_display_word gs in
  (1 ≤ len (word gs))%Z ∧
  len d = (2 * len (word gs) - 1)%Z ∧
  (∀ (i : nat) (pl : PuzzleLetter), puzzle gs !! i = Some pl →
     chars d !! (2 * i)%nat = Some (if guessed pl then character pl else "_")) ∧
  (∀ (i : nat) (c : string), chars (word gs) !! i = Some c →
     chars d !! (2 * i)%nat = Some (if bool_decide (c ∈ guesses gs) then c else "_")) ∧
  (∀ i : nat, (S i < String.length (word gs))%nat →
     chars d !! (2 * i + 1)%nat = Some " ") ∧
  shown_letters d = guesses gs ∩ letter_set (word gs).
Proof.
  intros Hreach Hgs d.
  pose proof (reachable_ok reg Hreach sid gs Hgs) as Hok.
  assert (Hn : (1 ≤ len (word gs))%Z).
  { pose proof (ok_word gs Hok) as Hw. unfold is_secret in Hw.
    apply andb_true_iff in Hw as [Hw%Z.ltb_lt _]. lia. }
  assert (Hpieces : length (display_pieces gs) = String.length (word gs)).
  { unfold display_pieces. by rewrite length_fmap, chars_length. }
  split; [done|]. subst d. split; [|split; [|split; [|split]]].
  - rewrite string_length_chars, (display_chars gs Hok), length_interleave.
    + rewrite Hpieces. unfold len in *. lia.
    + intros E. rewrite E in Hpieces. unfold len in Hn. simpl in Hpieces. lia.
  - intros i pl Hpl. rewrite (display_chars gs Hok), lookup_interleave_even.
    unfold display_pieces. rewrite (ok_puzzle gs Hok), list_lookup_fmap in Hpl.
    rewrite list_lookup_fmap.
    destruct (chars (word gs) !! i) as [c|]; [|done].
    simpl in Hpl |- *. by injection Hpl as <-.
  - intros i c Hc. rewrite (display_chars gs Hok), lookup_interleave_even.
    unfold display_pieces. by rewrite list_lookup_fmap, Hc.
  - intros i Hi. rewrite (display_chars gs Hok). apply lookup_interleave_odd.
    by rewrite Hpieces.
  - by apply shown_letters_eq.
Qed.

(** ** Duplicate guesses *)

Lemma duplicate_on_ok
    (reg : gmap string GameState) (sid letter : string) (gs : GameState) :
  reg !! sid = Some gs → state_ok gs → is_active gs = true →
  strip (upper letter) ∈ guesses gs →
  _make_guess letter sid reg =
  (Returned (Plain "error" (msg_duplicate (strip (upper letter)))), reg).
Proof.
  intros Hgs Hok Hact Hdup.
  destruct (ok_guesses gs Hok _ Hdup) as [Hlen Halpha].
  unfold _make_guess.
  rewrite Hgs, Hact, (active_not_over gs Hok Hact), Hlen, Halpha. simpl.
  by rewrite decide_True.
Qed.

(** C6.  In a reachable registry, a guess on an active game whose
    normalised letter (upper case, stripped) is already in [guesses] is
    answered with the duplicate-guess error that names the letter, and the
    registry, hence the whole game state, is unchanged. *)
Theorem duplicate_guess_rejected
    (reg : gmap string GameState) (sid letter : string) (gs : GameState) :
  reachable reg → reg !! sid = Some gs → is_active gs = true →
  strip (upper letter) ∈ guesses gs →
  _make_guess letter sid reg =
  (Returned (Plain "error" (msg_duplicate (strip (upper letter)))), reg).
Proof.
  intros Hreach Hgs Hact Hdup.
  apply (duplicate_on_ok reg sid letter gs Hgs); [|done..].
  apply (reachable_ok reg Hreach sid gs Hgs).
Qed.

(** A guess that was accepted is a duplicate afterwards, in whatever case
    and with whatever surrounding blanks it is written the second time. *)
Lemma accepted_then_duplicate
    (reg : gmap string GameState) (sid first second : string) (r : Response) :
  reachable reg →
  (_make_guess first sid reg).1 = Returned r → status_of r = "success" →
  game_over_of r = Some false →
  strip (upper second) = strip (upper first) →
  let reg' := (_make_guess first sid reg).2 in
  _make_guess second sid reg' =
  (Returned (Plain "error" (msg_duplicate (strip (upper first)))), reg').
Proof.
  intros Hreach Hr Hs Hcont Hsame reg'.
  pose proof (reachable_ok reg Hreach) as Hreg.
  assert (Hreach' : reachable reg') by apply (reachable_step (MakeGuess first sid) reg Hreach).
  destruct (make_guess_cases first sid reg Hreg)
    as [[msg E]|(gs & image & message & Hgs & Hact & Hlen & Halpha & Hnew & E)].
  { rewrite E in Hr. simpl in Hr. by injection Hr as <-. }
  simpl in E. subst reg'. rewrite E in Hr, Hreach' |- *. simpl in *.
  injection Hr as <-. simpl in Hcont. injection Hcont as Hover.
  set (l := strip (upper first)) in *.
  assert (Hact' : is_active (close_if_over (apply_guess l gs)) = true).
  { destruct (close_if_over_fields (apply_guess l gs))
      as (_ & _ & _ & _ & _ & _ & ->).
    rewrite Hover. simpl. rewrite andb_true_r.
    destruct (decide (l ∈ remaining_letters gs)) as [Hin|Hin];
      [rewrite (apply_guess_hit _ gs Hin) | rewrite (apply_guess_miss _ gs Hin)];
      done. }
  assert (Hdup : strip (upper second) ∈ guesses (close_if_over (apply_guess l gs))).
  { destruct (close_if_over_fields (apply_guess l gs)) as (_ & -> & _).
    rewrite Hsame.
    destruct (decide (l ∈ remaining_letters gs)) as [Hin|Hin];
      [rewrite (apply_guess_hit _ gs Hin) | rewrite (apply_guess_miss _ gs Hin)];
      simpl; set_solver. }
  pose proof (lookup_insert_eq reg sid (close_if_over (apply_guess l gs))) as Hgs'.
  pose proof (duplicate_on_ok _ sid second _ Hgs'
                (reachable_ok _ Hreach' sid _ Hgs') Hact' Hdup) as D.
  by rewrite Hsame in D.
Qed.

(** ** Start, end and status *)

(** C7.  Starting a game for a session id and then ending it removes the id
    from the registry: the start registers the id, [_end_game] succeeds and
    deletes it, and the status of the id is then [no_game].  This holds for
    every registry, every player name and every draw of the word. *)
Theorem start_end_status_no_game
    (draw : Z) (player s : string) (reg : gmap string GameState) :
  let started := (_start_hangman_game draw player s reg).2 in
  let ended := _end_game s started in
  is_Some (started !! s) ∧
  status_of ended.1 = "success" ∧
  ended.2 !! s = None ∧
  _get_game_status s ended.2 =
  Returned (Plain "no_game" "No game session found. Start a new game first.").
Proof.
  intros started ended.
  assert (Hs : is_Some (started !! s)).
  { subst started. unfold _start_hangman_game.
    destruct (get_secret_word draw) as [w|e].
    - rewrite start_with_returned, lookup_insert_eq. by eexists.
    - rewrite start_with_raised. simpl. rewrite lookup_insert_eq. by eexists. }
  split; [done|]. destruct Hs as [gs Hgs].
  subst ended. unfold _end_game. rewrite Hgs. simpl.
  split; [done|]. split; [apply lookup_delete_eq|].
  unfold _get_game_status. by rewrite lookup_delete_eq.
Qed.

(** ** A start that fails *)

(** C10.  When the selection of the secret word raises, [_start_hangman_game]
    answers with an error result, yet the session stays registered with a
    reset game: the player name set, empty word, no guesses, not active.
    Other sessions are untouched.  The reset game counts as won (no
    remaining letters), so the status of the session is then [finished]
    with [won] true. *)
Theorem failed_start_leaves_finished_session
    (e : exception) (player sid : string) (reg : gmap string GameState) :
  let result := start_with (Raised e) player sid reg in
  let left_over :=
    mkGameState player EmptyString EmptyString ∅ ∅ [] 0 false in
  result.1 = Plain "error" ("Failed to start game: " +:+ exception_str e) ∧
  result.2 !! sid = Some left_over ∧
  (∀ other, other ≠ sid → result.2 !! other = reg !! other) ∧
  is_game_won left_over = true ∧
  ∃ image,
    py_index "tuple" get_hangman_images 0 = Returned image ∧
    _get_game_status sid result.2 =
    Returned (Snapshot "finished" player 0 EmptyString image [] 9 true
                (Some true) sid).
Proof.
  intros result left_over. subst result. rewrite start_with_raised. simpl.
  split; [done|]. split; [by rewrite lookup_insert_eq|].
  split; [by intros other Hne; rewrite lookup_insert_ne|].
  split; [done|].
  destruct (image_lookup 0 ltac:(lia)) as [image Himage].
  exists image. split; [done|].
  unfold _get_game_status. rewrite lookup_insert_eq.
  change (negb (is_active _) && negb (is_game_over _)) with false.
  cbv iota. simpl image_idx. rewrite Himage. reflexivity.
Qed.

(** ** Winning, and guessing after the end *)

Lemma won_iff_all_revealed (gs : GameState) :
  state_ok gs → (is_game_won gs = true ↔ all_revealed gs).
Proof.
  intros Hok. rewrite is_game_won_iff. unfold all_revealed.
  rewrite (ok_remaining gs Hok), (ok_puzzle gs Hok), Forall_fmap, Forall_forall.
  split.
  - intros Hempty c Hc. simpl. apply bool_decide_eq_true.
    apply elem_of_letter_set in Hc. set_solver.
  - intros Hall. apply set_eq. intros c. split; [|by intros ?%elem_of_empty].
    intros [Hc%elem_of_letter_set Hg]%elem_of_difference.
    apply Hall in Hc. simpl in Hc. by apply bool_decide_eq_true in Hc.
Qed.

(** A guess on a registered game that is not active is answered with the
    message of line 280, and nothing changes. *)
Lemma guess_on_inactive
    (reg : gmap string GameState) (sid letter : string) (gs : GameState) :
  reg !! sid = Some gs → is_active gs = false →
  _make_guess letter sid reg = (Returned (Plain "error" msg_not_active), reg).
Proof. intros Hgs Hact. unfold _make_guess. by rewrite Hgs, Hact. Qed.

(** The branch of line 283, with the message [Game is already over], is
    never taken: a game that is over is not active, and the test of
    [is_active] comes first. *)
Lemma already_over_never_reported
    (reg : gmap string GameState) (sid letter : string) :
  reachable reg →
  (_make_guess letter sid reg).1 ≠ Returned (Plain "error" msg_already_over).
Proof.
  intros Hreach. pose proof (reachable_ok reg Hreach) as Hreg.
  unfold _make_guess. destruct (reg !! sid) as [gs|] eqn:Hgs; [|done].
  destruct (is_active gs) eqn:Hact; [|done].
  rewrite (active_not_over gs (Hreg _ _ Hgs) Hact). simpl.
  repeat match goal with
         | |- context [if ?b then _ else _] => destruct b; try done
         | |- context [match ?b with Returned _ => _ | Raised _ => _ end] =>
             destruct b; try done
         end.
Qed.

(** C2, as the code has it.  After a successful guess the game is declared
    won if and only if every position of the puzzle is revealed, which is
    the same as no remaining letters; the game is then no longer active.
    Every later guess for that session is rejected with the message
    [No active game. Start a new game first.] of the [is_active] test, and
    not with [Game is already over. Start a new game.]: the registry is
    unchanged by it. *)
Theorem guess_after_win_reports_no_active_game
    (reg : gmap string GameState) (sid letter : string) (r : Response) :
  reachable reg →
  (_make_guess letter sid reg).1 = Returned r → status_of r = "success" →
  let reg' := (_make_guess letter sid reg).2 in
  ∃ gs', reg' !! sid = Some gs' ∧
         (declares_won r ↔ all_revealed gs') ∧
         (all_revealed gs' ↔ remaining_letters gs' = ∅) ∧
         (declares_won r →
            is_active gs' = false ∧
            msg_not_active ≠ msg_already_over ∧
            ∀ next, _make_guess next sid reg' =
                    (Returned (Plain "error" msg_not_active), reg')).
Proof.
  intros Hreach Hr Hs reg'.
  pose proof (reachable_ok reg Hreach) as Hreg.
  assert (Hreg' : registry_ok reg') by apply (registry_ok_run (MakeGuess letter sid) reg Hreg).
  destruct (make_guess_cases letter sid reg Hreg)
    as [[msg E]|(gs & image & message & Hgs & Hact & Hlen & Halpha & Hnew & E)].
  { rewrite E in Hr. simpl in Hr. by injection Hr as <-. }
  simpl in E. subst reg'. rewrite E in Hr, Hreg' |- *. simpl in Hr, Hreg' |- *.
  injection Hr as <-.
  set (gs' := apply_guess (strip (upper letter)) gs) in *.
  pose proof (Hreg' sid _ (lookup_insert_eq _ _ _)) as Hok'.
  destruct (close_if_over_fields gs') as (_ & _ & Er & Ep & _ & _ & Ea).
  assert (Hwon : declares_won
            (Guessed "success" (strip (upper letter))
               (contains (strip (upper letter)) (word gs))
               (get_display_word gs') image (sorted_list (guesses gs'))
               (images_len - 1 - image_idx gs') (is_game_over gs') (verdict gs')
               message) ↔ is_game_won (close_if_over gs') = true).
  { assert (is_game_won (close_if_over gs') = is_game_won gs') as ->
      by (unfold is_game_won; by rewrite Er).
    unfold declares_won, verdict, is_game_over. cbn [game_over_of won_of].
    destruct (is_game_won gs'); [done|].
    split; [|done]. intros [_ Hv]. by destruct (is_game_lost gs'). }
  exists (close_if_over gs'). split; [by rewrite lookup_insert_eq|].
  split; [by rewrite Hwon; apply won_iff_all_revealed|].
  split; [by rewrite <- won_iff_all_revealed; [apply is_game_won_iff|]|].
  intros Hdecl. apply Hwon in Hdecl.
  assert (Hinactive : is_active (close_if_over gs') = false).
  { rewrite (ok_active _ Hok'). unfold is_game_over. by rewrite Hdecl. }
  split; [done|]. split; [done|].
  intros next. apply (guess_on_inactive _ sid next (close_if_over gs'));
    [by rewrite lookup_insert_eq | done].
Qed.

(** ** The status [no_active_game] *)

(** The branch of line 369, with the status [no_active_game], is never
    taken in a reachable registry. *)
Lemma no_active_game_never_reported
    (reg : gmap string GameState) (sid : string) (r : Response) :
  reachable reg → _get_game_status sid reg = Returned r →
  status_of r ≠ "no_active_game".
Proof.
  intros Hreach. pose proof (reachable_ok reg Hreach) as Hreg.
  unfold _get_game_status. destruct (reg !! sid) as [gs|] eqn:Hgs.
  2: { by intros [= <-]. }
  rewrite (ok_active gs (Hreg _ _ Hgs)).
  destruct (is_game_over gs); simpl;
    destruct (py_index "tuple" get_hangman_images (image_idx gs)); try done;
    by intros [= <-].
Qed.

(** ** The scenarios, step by step *)

Lemma guess_has_exactly_one_effect_witness :
  ∃ r gs',
    (_make_guess " a " "s" cat_game).1 = Returned r ∧ status_of r = "success" ∧
    (_make_guess " a " "s" cat_game).2 !! "s" = Some gs' ∧
    ((miss_counted cat_state gs' ∧ ¬ position_revealed cat_state gs' ∧
      puzzle gs' = puzzle cat_state) ∨
     (position_revealed cat_state gs' ∧ ¬ miss_counted cat_state gs' ∧
      image_idx gs' = image_idx cat_state)).
Proof.
  apply (guess_has_exactly_one_effect cat_game "s" " a " cat_state).
  - apply reachable_run_all, reachable_init.
  - vm_compute. reflexivity.
  - reflexivity.
  - reflexivity.
  - reflexivity.
  - apply (bool_decide_unpack _). vm_compute. exact I.
Defined.

Lemma guess_after_win_witness :
  ∃ gs', (_make_guess "T" "s" cat_game_ca).2 !! "s" = Some gs' ∧
         (declares_won cat_win ↔ all_revealed gs') ∧
         (all_revealed gs' ↔ remaining_letters gs' = ∅) ∧
         (declares_won cat_win →
            is_active gs' = false ∧
            msg_not_active ≠ msg_already_over ∧
            ∀ next, _make_guess next "s" (_make_guess "T" "s" cat_game_ca).2 =
                    (Returned (Plain "error" msg_not_active),
                     (_make_guess "T" "s" cat_game_ca).2)).
Proof.
  apply (guess_after_win_reports_no_active_game cat_game_ca "s" "T" cat_win).
  - apply reachable_run_all, reachable_init.
  - vm_compute. reflexivity.
  - reflexivity.
Defined.

Lemma revealed_iff_guessed_witness :
  (∀ sid gs, cat_game !! sid = Some gs → mask_matches gs) ∧
  (∀ o sid gs, run o cat_game !! sid = Some gs → mask_matches gs).
Proof. apply (revealed_iff_guessed cat_game). apply reachable_run_all, reachable_init. Defined.

Lemma miss_count_witness :
  (0 ≤ image_idx cat_state ≤ 9)%Z ∧
  (is_game_lost cat_state = true ↔ image_idx cat_state = 9%Z) ∧
  (image_idx cat_state = 9%Z → is_active cat_state = false) ∧
  ∀ letter r,
    (_make_guess letter "s" cat_game).1 = Returned r → status_of r = "success" →
    ∃ gs', (_make_guess letter "s" cat_game).2 !! "s" = Some gs' ∧
           (image_idx cat_state ≤ image_idx gs' ≤ image_idx cat_state + 1)%Z ∧
           (declares_lost r ↔ image_idx gs' = 9%Z) ∧
           (image_idx gs' = 9%Z → is_active gs' = false).
Proof.
  apply (miss_count_bounded_loss_at_nine cat_game "s" cat_state).
  - apply reachable_run_all, reachable_init.
  - vm_compute. reflexivity.
Defined.

Lemma display_word_witness :
  let d := get_display_word cat_state in
  d = "C _ _" ∧
  (1 ≤ len (word cat_state))%Z ∧
  len d = (2 * len (word cat_state) - 1)%Z ∧
  (∀ (i : nat) (pl : PuzzleLetter), puzzle cat_state !! i = Some pl →
     chars d !! (2 * i)%nat = Some (if guessed pl then character pl else "_")) ∧
  (∀ (i : nat) (c : string), chars (word cat_state) !! i = Some c →
     chars d !! (2 * i)%nat =
     Some (if bool_decide (c ∈ guesses cat_state) then c else "_")) ∧
  (∀ i : nat, (S i < String.length (word cat_state))%nat →
     chars d !! (2 * i + 1)%nat = Some " ") ∧
  shown_letters d = guesses cat_state ∩ letter_set (word cat_state).
Proof.
  split; [vm_compute; reflexivity|].
  apply (display_word_shape cat_game "s" cat_state).
  - apply reachable_run_all, reachable_init.
  - vm_compute. reflexivity.
Defined.

Lemma duplicate_guess_witness :
  _make_guess "a" "s" cat_game_a =
  (Returned (Plain "error" "You've already guessed 'A'. Try a different letter."),
   cat_game_a).
Proof.
  apply (duplicate_guess_rejected cat_game_a "s" "a" cat_state_a).
  - apply reachable_run_all, reachable_init.
  - vm_compute. reflexivity.
  - reflexivity.
  - apply (bool_decide_unpack _). vm_compute. exact I.
Defined.

Lemma image_lookup_witness :
  length get_hangman_images = 10%nat ∧
  (∀ sid gs, cat_game !! sid = Some gs →
     (0 ≤ image_idx gs ≤ 9)%Z ∧
     ∃ image, py_index "tuple" get_hangman_images (image_idx gs) = Returned image) ∧
  (∀ letter sid, ∃ r, (_make_guess letter sid cat_game).1 = Returned r) ∧
  (∀ sid, ∃ r, _get_game_status sid cat_game = Returned r).
Proof. apply (image_lookup_never_fails cat_game). apply reachable_run_all, reachable_init. Defined.

(** ** The model on the scenarios of the specification *)

Example normalisation : strip (upper " a ") = "A" ∧ strip (upper "A") = "A".
Proof. split; reflexivity. Qed.

Example secret_word_cat : get_secret_word 1 = Returned "CAT".
Proof. vm_compute. reflexivity. Qed.

(** Start on CAT, then C: correct, display [C _ _], nine guesses left, the
    game goes on. *)
Example cat_first_guess :
  (_make_guess "C" "s" (run_all [StartGame 1 "Alice" "s"] ∅)).1 =
  Returned (Guessed "success" "C" true "C _ _" empty_scene ["C"] 9 false None
              "Good guess! 'C' is in the word.").
Proof. vm_compute. reflexivity. Qed.

(** C, A, T wins. *)
Example cat_third_guess :
  (_make_guess "T" "s" cat_game_ca).1 = Returned cat_win.
Proof. vm_compute. reflexivity. Qed.

(** Nine distinct wrong letters lose the game at the ninth, with the last
    drawing. *)
Example nine_misses_lose :
  let before :=
    run_all (StartGame 1 "Bob" "s" ::
             ((λ l, MakeGuess l "s") <$> ["B"; "D"; "E"; "F"; "G"; "H"; "I"; "J"])) ∅ in
  let last := _make_guess "K" "s" before in
  (image_idx <$> before !! "s") = Some 8%Z ∧
  (image_idx <$> last.2 !! "s") = Some 9%Z ∧
  (is_active <$> last.2 !! "s") = Some false ∧
  last.1 =
  Returned (Guessed "success" "K" false "_ _ _"
              (default EmptyString (get_hangman_images !! 9%nat))
              ["B"; "D"; "E"; "F"; "G"; "H"; "I"; "J"; "K"] 0 true (Some false)
              "Game over Bob! The word was 'CAT'. Better luck next time!").
Proof. vm_compute. repeat split; reflexivity. Qed.

(** An input that is not one letter is rejected and changes nothing. *)
Example invalid_guesses :
  _make_guess "abc" "s" cat_game =
    (Returned (Plain "error" msg_one_letter), cat_game) ∧
  _make_guess "1" "s" cat_game =
    (Returned (Plain "error" msg_one_letter), cat_game) ∧
  _make_guess "a" "nobody" cat_game =
    (Returned (Plain "error" msg_no_session), cat_game).
Proof. vm_compute. repeat split; reflexivity. Qed.

(** The table has 72 entries (KANGAROO and JAGUAR twice), all in capitals. *)
Example word_pool_entries :
  length word_pool = 72%nat ∧ take 3 word_pool = ["DOG"; "CAT"; "ELEPHANT"] ∧
  last word_pool = Some "PHEASANT".
Proof. vm_compute. repeat split; reflexivity. Qed.

(** ** Induction over the games of the reachable registries *)

(** A property of games holds in every reachable registry when it holds of
    every freshly started game and is kept by every accepted guess. *)
Lemma reachable_games_ind (P : GameState → Prop) :
  (∀ w player gs0, w ∈ word_pool →
     P (initialize_game_state
          (set_word w (set_player_name player (reset_game gs0))))) →
  (∀ gs letter, state_ok gs → P gs → is_active gs = true →
     len (strip (upper letter)) = 1%Z → isalpha (strip (upper letter)) = true →
     strip (upper letter) ∉ guesses gs →
     P (close_if_over (apply_guess (strip (upper letter)) gs))) →
  ∀ reg, reachable reg → ∀ sid gs, reg !! sid = Some gs → P gs.
Proof.
  intros Hstart Hguess reg Hreach.
  induction Hreach as [|o reg Hreach IH]; intros sid gs.
  { by rewrite lookup_empty. }
  pose proof (reachable_ok reg Hreach) as Hreg.
  destruct o as [draw player s|letter s|s| |s]; simpl; try apply IH.
  - unfold _start_hangman_game.
    destruct (get_secret_word_returns draw) as (w & -> & Hw).
    rewrite start_with_returned, lookup_insert.
    case_decide; [|apply IH]. intros [= <-]. by apply Hstart.
  - destruct (make_guess_cases letter s reg Hreg)
      as [[msg ->]|(g & image & message & Hg & Hact & Hlen & Halpha & Hnew & E)];
      [apply IH|].
    simpl in E. rewrite E. simpl. rewrite lookup_insert.
    case_decide; [|apply IH]. intros [= <-].
    apply Hguess; try done; [apply (Hreg _ _ Hg) | apply (IH _ _ Hg)].
  - unfold _end_game. destruct (reg !! s) eqn:Hs; simpl; [|apply IH].
    rewrite lookup_delete. case_decide; [done | apply IH].
Qed.

(** ** The word source *)

Lemma word_pool_length : length word_pool = 72%nat.
Proof. vm_compute. reflexivity. Qed.

Lemma get_secret_word_at (draw : Z) (w : string) :
  word_pool !! Z.to_nat (draw `mod` 72) = Some w →
  get_secret_word draw = Returned w.
Proof.
  intros Hw. unfold get_secret_word.
  rewrite get_word_list_animals, word_pool_length.
  change (Z.of_nat 72 - 1)%Z with 71%Z. unfold randint.
  change (71 <? 0)%Z with false. cbv iota.
  change (71 - 0 + 1)%Z with 72%Z. rewrite Z.add_0_l.
  pose proof (Z.mod_pos_bound draw 72 ltac:(lia)) as Hi.
  unfold py_index. rewrite word_pool_length.
  destruct (Z.ltb_spec (draw `mod` 72) 0) as [?|_]; [lia|].
  destruct (Z.ltb_spec (draw `mod` 72) 0) as [?|_]; [lia|].
  rewrite Hw.
  assert (Hin : w ∈ word_pool) by (eapply list_elem_of_lookup_2; exact Hw).
  pose proof (proj1 (Forall_forall _ _) word_pool_secret w Hin) as Hs.
  unfold is_secret in Hs. by apply andb_true_iff in Hs as [-> _].
Qed.

(** X2.  Whatever number is drawn, [get_secret_word] returns and does not
    raise; the word is an entry of the table, has at least one letter and
    consists of capital letters only. *)
Theorem get_secret_word_well_formed (draw : Z) :
  ∃ w, get_secret_word draw = Returned w ∧ w ∈ word_pool ∧
       (1 ≤ len w)%Z ∧ all_chars is_upper_char w = true.
Proof.
  destruct (get_secret_word_returns draw) as (w & Hw & Hin).
  exists w. split; [done|]. split; [done|].
  pose proof (proj1 (Forall_forall _ _) word_pool_secret w Hin) as Hs.
  unfold is_secret in Hs. apply andb_true_iff in Hs as [Hl%Z.ltb_lt Hu].
  split; [lia | done].
Qed.

(** X3.  Every entry of the table can be the secret word: for each there
    is a draw on which [get_secret_word] returns it. *)
Theorem every_word_can_be_drawn (w : string) :
  w ∈ word_pool → ∃ draw, get_secret_word draw = Returned w.
Proof.
  intros [i Hi]%list_elem_of_lookup_1.
  pose proof (lookup_lt_Some _ _ _ Hi) as Hlt. rewrite word_pool_length in Hlt.
  exists (Z.of_nat i). apply get_secret_word_at.
  rewrite Z.mod_small by lia. by rewrite Nat2Z.id.
Qed.

Lemma every_word_can_be_drawn_witness :
  ∃ draw, get_secret_word draw = Returned "PHEASANT".
Proof.
  apply (every_word_can_be_drawn "PHEASANT").
  apply (bool_decide_unpack _). vm_compute. exact I.
Defined.

(** ** Starting a game *)

Lemma fresh_display (l : list string) :
  join " " ((λ pl, if guessed pl then character pl else "_")
              <$> ((λ c, mkPuzzleLetter c false) <$> l)) =
  masked (length l).
Proof.
  unfold masked. f_equal. induction l as [|c l IH]; [done|].
  simpl. by f_equal.
Qed.

(** X4.  [_start_hangman_game] succeeds on every registry, for every player,
    session id and draw.  The game it registers depends only on the word
    drawn and the player: no guesses, all letters remaining, nothing
    revealed, no misses, active; whatever the session held before is gone.
    The result reports the length of the word, a display of that many
    placeholders, the first drawing and nine guesses remaining. *)
Theorem start_registers_fresh_game
    (draw : Z) (player sid : string) (reg : gmap string GameState) :
  ∃ w, get_secret_word draw = Returned w ∧ w ∈ word_pool ∧
    _start_hangman_game draw player sid reg =
    (Started "success" ("New game started for " +:+ player +:+ "!")
       (len w) (masked (String.length w)) empty_scene 9 sid,
     <[sid := {| player_name := player;
                 word := w;
                 current_guess := EmptyString;
                 guesses := ∅;
                 remaining_letters := letter_set w;
                 puzzle := (λ c, mkPuzzleLetter c false) <$> chars w;
                 image_idx := 0;
                 is_active := true |}]> reg).
Proof.
  destruct (get_secret_word_returns draw) as (w & Hw & Hin).
  exists w. split; [done|]. split; [done|].
  unfold _start_hangman_game. rewrite Hw.
  pose proof (start_with_returned w player sid reg) as Hreg.
  unfold start_with in *.
  change (py_index "tuple" get_hangman_images 0) with (Returned empty_scene) in *.
  cbv iota in *. simpl in Hreg. simpl. rewrite Hreg.
  unfold get_display_word. simpl.
  by rewrite fresh_display, chars_length.
Qed.

(** ** Sessions are independent *)

(** The registry after a call of [_make_guess]: as it was, or with the
    game of the session replaced. *)
Lemma make_guess_registry_shape (letter sid : string)
    (reg : gmap string GameState) :
  (_make_guess letter sid reg).2 = reg ∨
  ∃ gs gs', reg !! sid = Some gs ∧
            (_make_guess letter sid reg).2 = <[sid := gs']> reg.
Proof.
  unfold _make_guess. destruct (reg !! sid) as [gs|] eqn:Hgs; [|by left].
  repeat match goal with
         | |- context [if ?b then _ else _] => destruct b; simpl; auto
         | |- context [match ?x with Returned _ => _ | Raised _ => _ end] =>
             destruct x; simpl; auto
         end; right; eauto.
Qed.

Lemma start_registry_shape (draw : Z) (player sid : string)
    (reg : gmap string GameState) :
  ∃ gs', (_start_hangman_game draw player sid reg).2 = <[sid := gs']> reg.
Proof.
  unfold _start_hangman_game. destruct (get_secret_word draw) as [w|e].
  - rewrite start_with_returned. by eexists.
  - rewrite start_with_raised. by eexists.
Qed.

Lemma end_registry_shape (sid : string) (reg : gmap string GameState) :
  (_end_game sid reg).2 = delete sid reg.
Proof.
  unfold _end_game. destruct (reg !! sid) eqn:Hs; simpl; [done|].
  symmetry. by apply delete_id.
Qed.

(** X5.  An operation leaves every session other than the one it
    addresses exactly as it was; this holds on every registry. *)
Theorem other_sessions_untouched
    (o : operation) (reg : gmap string GameState) (other : string) :
  op_session o ≠ Some other → run o reg !! other = reg !! other.
Proof.
  intros Hne. destruct o as [draw player s|letter s|s| |s]; simpl in *; try done.
  - destruct (start_registry_shape draw player s reg) as [gs' ->].
    apply lookup_insert_ne. congruence.
  - destruct (make_guess_registry_shape letter s reg)
      as [->|(gs & gs' & _ & ->)]; [done|].
    apply lookup_insert_ne. congruence.
  - rewrite end_registry_shape. apply lookup_delete_ne. congruence.
Qed.

Lemma other_sessions_untouched_witness :
  is_Some (two_games !! "t") ∧
  run (MakeGuess "a" "s") two_games !! "s" ≠ two_games !! "s" ∧
  run (MakeGuess "a" "s") two_games !! "t" = two_games !! "t".
Proof.
  split; [vm_compute; by eexists|].
  split; [vm_compute; discriminate|].
  apply (other_sessions_untouched (MakeGuess "a" "s") two_games "t").
  simpl. discriminate.
Defined.

(** X6.  Only a start creates a session and only an end removes one: the
    session ids after a start are the old ones and the started one, after
    an end the old ones without the ended one, and a guess, a status or a
    listing leaves the set of session ids as it was. *)
Theorem session_ids_after_operation
    (o : operation) (reg : gmap string GameState) :
  dom (run o reg) =
  match o with
  | StartGame _ _ s => {[s]} ∪ dom reg
  | EndGame s => dom reg ∖ {[s]}
  | _ => dom reg
  end.
Proof.
  destruct o as [draw player s|letter s|s| |s]; simpl; try done.
  - destruct (start_registry_shape draw player s reg) as [gs' ->].
    apply dom_insert_L.
  - destruct (make_guess_registry_shape letter s reg)
      as [->|(gs & gs' & Hgs & ->)]; [done|].
    rewrite dom_insert_L. apply elem_of_dom_2 in Hgs. set_solver.
  - rewrite end_registry_shape. apply dom_delete_L.
Qed.

(** ** Ending a game *)

(** X7.  Once a session is ended it is gone for every operation: a second
    [_end_game] fails with [No game session found.], a guess fails with the
    no-session error, and neither changes the registry. *)
Theorem ended_session_is_gone
    (sid letter : string) (reg : gmap string GameState) :
  let ended := (_end_game sid reg).2 in
  _end_game sid ended = (Plain "error" "No game session found.", ended) ∧
  _make_guess letter sid ended = (Returned (Plain "error" msg_no_session), ended).
Proof.
  intros ended. subst ended. rewrite end_registry_shape.
  unfold _end_game, _make_guess. by rewrite lookup_delete_eq.
Qed.

(** ** Listing the sessions *)

(** X8.  [_list_active_sessions] succeeds on every registry and reports
    each session exactly once: the list has as many entries as the registry
    has sessions, [total_sessions] is that number, no session id occurs
    twice, and the entries are exactly the summaries of the registered
    games (player, active flag, length of the word, number of guesses, game
    over). *)
Theorem list_reports_every_session (reg : gmap string GameState) :
  ∃ sessions,
    _list_active_sessions reg =
      SessionList "success" sessions (Z.of_nat (size reg)) ∧
    length sessions = size reg ∧
    NoDup (summary_session_id <$> sessions) ∧
    ∀ sm, sm ∈ sessions ↔
          ∃ sid gs, reg !! sid = Some gs ∧ sm = summary_of sid gs.
Proof.
  unfold _list_active_sessions.
  set (f := λ '(session_id, game_state), mkSessionSummary _ _ _ _ _ _).
  assert (Hf : ∀ sid gs, f (sid, gs) = summary_of sid gs).
  { intros sid gs. unfold f, summary_of. f_equal.
    case_bool_decide as Hw; [by rewrite Hw | done]. }
  exists (f <$> map_to_list reg).
  rewrite length_fmap, length_map_to_list.
  split; [done|]. split; [done|]. split.
  - rewrite <- list_fmap_compose.
    rewrite (list_fmap_ext (summary_session_id ∘ f) fst (map_to_list reg));
      [apply NoDup_fst_map_to_list|].
    by intros i [sid gs] _.
  - intros sm. rewrite list_elem_of_fmap. split.
    + intros ([sid gs] & -> & Hin%elem_of_map_to_list).
      exists sid, gs. by rewrite Hf.
    + intros (sid & gs & Hgs & ->). exists (sid, gs).
      split; [by rewrite Hf | by apply elem_of_map_to_list].
Qed.

(** ** Status of a registered game *)

Lemma status_snapshot (sid : string) (reg : gmap string GameState)
    (gs : GameState) :
  reg !! sid = Some gs → state_ok gs →
  ∃ image,
    py_index "tuple" get_hangman_images (image_idx gs) = Returned image ∧
    _get_game_status sid reg =
    Returned (Snapshot (if is_game_over gs then "finished" else "active")
                (player_name gs) (len (word gs)) (get_display_word gs) image
                (sorted_list (guesses gs)) (9 - image_idx gs)
                (is_game_over gs)
                (if is_game_over gs then Some (is_game_won gs) else None)
                sid).
Proof.
  intros Hgs Hok.
  destruct (image_lookup _ (ok_image gs Hok)) as [image Himage].
  exists image. split; [done|].
  unfold _get_game_status. rewrite Hgs, Himage, (ok_active gs Hok), images_len_eq.
  by destruct (is_game_over gs).
Qed.




(** X9.  In a reachable registry the status of a registered session is
    never an error: it is a full snapshot, [active] exactly when the game
    is not over and [finished] exactly when it is; [won] is [None] while
    the game goes on and the outcome once it is over; the word has at least
    one letter and the guesses remaining are [9 - image_idx], between 0
    and 9. *)
Theorem status_of_registered_game
    (reg : gmap string GameState) (sid : string) (gs : GameState) :
  reachable reg → reg !! sid = Some gs →
  ∃ image,
    _get_game_status sid reg =
    Returned (Snapshot (if is_game_over gs then "finished" else "active")
                (player_name gs) (len (word gs)) (get_display_word gs) image
                (sorted_list (guesses gs)) (9 - image_idx gs)
                (is_game_over gs)
                (if is_game_over gs then Some (is_game_won gs) else None)
                sid) ∧
    (1 ≤ len (word gs))%Z ∧ (0 ≤ 9 - image_idx gs ≤ 9)%Z.
Proof.
  intros Hreach Hgs. pose proof (reachable_ok reg Hreach sid gs Hgs) as Hok.
  destruct (status_snapshot sid reg gs Hgs Hok) as (image & _ & E).
  exists image. split; [done|].
  pose proof (ok_image gs Hok). pose proof (ok_word gs Hok) as Hw.
  unfold is_secret in Hw. apply andb_true_iff in Hw as [Hw%Z.ltb_lt _]. lia.
Qed.

Lemma status_of_registered_game_witness :
  ∃ image,
    _get_game_status "s" cat_game =
    Returned (Snapshot (if is_game_over cat_state then "finished" else "active")
                (player_name cat_state) (len (word cat_state))
                (get_display_word cat_state) image
                (sorted_list (guesses cat_state)) (9 - image_idx cat_state)
                (is_game_over cat_state)
                (if is_game_over cat_state
                 then Some (is_game_won cat_state) else None)
                "s") ∧
    (1 ≤ len (word cat_state))%Z ∧ (0 ≤ 9 - image_idx cat_state ≤ 9)%Z.
Proof.
  apply (status_of_registered_game cat_game "s" cat_state).
  - apply reachable_run_all, reachable_init.
  - vm_compute. reflexivity.
Defined.

(** An accepted guess reports the drawing found at the new miss count. *)
Lemma make_guess_accepted_at (letter sid : string)
    (reg : gmap string GameState) (gs : GameState) (image : string) :
  reg !! sid = Some gs → is_active gs = true → is_game_over gs = false →
  len (strip (upper letter)) = 1%Z → isalpha (strip (upper letter)) = true →
  strip (upper letter) ∉ guesses gs →
  py_index "tuple" get_hangman_images
    (image_idx (apply_guess (strip (upper letter)) gs)) = Returned image →
  let l := strip (upper letter) in
  let gs' := apply_guess l gs in
  ∃ message,
    _make_guess letter sid reg =
    (Returned (Guessed "success" l (contains l (word gs))
                 (get_display_word gs') image (sorted_list (guesses gs'))
                 (images_len - 1 - image_idx gs')
                 (is_game_over gs') (verdict gs') message),
     <[sid := close_if_over gs']> reg).
Proof.
  intros Hreg Hact Hover Hlen Halpha Hnew Himage l gs'.
  unfold _make_guess. rewrite Hreg, Hact, Hover. simpl negb. cbv iota.
  rewrite Hlen, Halpha. simpl orb. cbv iota. rewrite decide_False by done.
  fold l. fold (apply_guess l gs). fold gs'. fold l gs' in Himage. rewrite Himage.
  change (word (add_guess l (set_current_guess l gs))) with (word gs).
  unfold close_if_over, verdict, is_game_over.
  destruct (is_game_won gs'); [by eexists|].
  destruct (is_game_lost gs'); by eexists.
Qed.

(** X10.  The status asked right after a successful guess repeats what the
    guess reported: the same display, drawing, list of guesses, guesses
    remaining, game-over flag and outcome; it is [finished] exactly when
    the guess ended the game. *)
Theorem status_after_guess_agrees
    (reg : gmap string GameState) (sid letter : string)
    (st l : string) (correct : bool) (display image : string)
    (made : list string) (remaining : Z) (over : bool) (won : option bool)
    (message : string) :
  reachable reg →
  (_make_guess letter sid reg).1 =
    Returned (Guessed st l correct display image made remaining over won message) →
  ∃ player n,
    _get_game_status sid (_make_guess letter sid reg).2 =
    Returned (Snapshot (if over then "finished" else "active") player n
                display image made remaining over won sid).
Proof.
  intros Hreach Hr. pose proof (reachable_ok reg Hreach) as Hreg.
  destruct (make_guess_cases letter sid reg Hreg)
    as [[msg E]|(gs & img & msg & Hgs & Hact & Hlen & Halpha & Hnew & E)].
  { rewrite E in Hr. simpl in Hr. by injection Hr. }
  simpl in E. rewrite E in Hr |- *. simpl in Hr |- *.
  set (gs' := apply_guess (strip (upper letter)) gs) in *.
  pose proof (state_ok_close _ gs (Hreg _ _ Hgs) Hact Hlen Halpha Hnew) as Hok'.
  fold gs' in Hok'.
  destruct (status_snapshot sid (<[sid := close_if_over gs']> reg)
              (close_if_over gs') (lookup_insert_eq _ _ _) Hok')
    as (image' & Himage' & ->).
  destruct (close_if_over_fields gs') as (Ew & Eg & Er & Ep & Ei & En & Ea).
  assert (Ewon : is_game_won (close_if_over gs') = is_game_won gs')
    by (unfold is_game_won; by rewrite Er).
  assert (Eover : is_game_over (close_if_over gs') = is_game_over gs')
    by (unfold is_game_over, is_game_lost; by rewrite Ewon, Ei).
  assert (Edisp : get_display_word (close_if_over gs') = get_display_word gs')
    by (unfold get_display_word; by rewrite Ep).
  rewrite Ei in Himage'.
  rewrite Eover, Ewon, Edisp, Eg, Ei, Ew, En.
  destruct (make_guess_accepted_at letter sid reg gs image' Hgs Hact
              (active_not_over gs (Hreg _ _ Hgs) Hact) Hlen Halpha Hnew Himage')
    as [msg' E'].
  rewrite E in E'. injection E' as Eimg _. subst img.
  injection Hr as <- <- <- <- <- <- <- <- <- <-.
  rewrite images_len_eq. do 2 eexists. f_equal. f_equal.
  unfold verdict, is_game_over.
  by destruct (is_game_won gs'), (is_game_lost gs').
Qed.

Lemma status_after_guess_agrees_witness :
  ∃ player n,
    _get_game_status "s" (_make_guess "T" "s" cat_game_ca).2 =
    Returned (Snapshot "finished" player n "C A T" empty_scene
                ["A"; "C"; "T"] 9 true (Some true) "s").
Proof.
  apply (status_after_guess_agrees cat_game_ca "s" "T" "success" "T" true
           "C A T" empty_scene ["A"; "C"; "T"] 9 true (Some true)
           "Congratulations Alice! You won! The word was 'CAT'.").
  - apply reachable_run_all, reachable_init.
  - vm_compute. reflexivity.
Defined.

(** ** What a guess does and does not change *)

(** X11.  In a reachable registry every guess is answered, with status
    [error] or [success] and nothing else, and a guess answered with an
    error leaves the whole registry unchanged. *)
Theorem rejected_guess_changes_nothing
    (reg : gmap string GameState) (sid letter : string) :
  reachable reg →
  ∃ r, (_make_guess letter sid reg).1 = Returned r ∧
       (status_of r = "error" ∨ status_of r = "success") ∧
       (status_of r = "error" → (_make_guess letter sid reg).2 = reg).
Proof.
  intros Hreach. pose proof (reachable_ok reg Hreach) as Hreg.
  destruct (make_guess_cases letter sid reg Hreg)
    as [[msg ->]|(gs & img & msg & _ & _ & _ & _ & _ & E)].
  - eexists. split; [done|]. split; [by left | done].
  - simpl in E. rewrite E. eexists. split; [done|]. split; [by right | done].
Qed.

Lemma rejected_guess_changes_nothing_witness :
  ∃ r, (_make_guess "7" "s" cat_game).1 = Returned r ∧
       (status_of r = "error" ∨ status_of r = "success") ∧
       (status_of r = "error" → (_make_guess "7" "s" cat_game).2 = cat_game).
Proof.
  apply (rejected_guess_changes_nothing cat_game "s" "7").
  apply reachable_run_all, reachable_init.
Defined.

Lemma apply_guess_fields (l : string) (gs : GameState) :
  word (apply_guess l gs) = word gs ∧
  player_name (apply_guess l gs) = player_name gs ∧
  guesses (apply_guess l gs) = guesses gs ∪ {[l]} ∧
  length (puzzle (apply_guess l gs)) = length (puzzle gs) ∧
  remaining_letters (apply_guess l gs) ⊆ remaining_letters gs ∧
  (image_idx gs ≤ image_idx (apply_guess l gs) ≤ image_idx gs + 1)%Z.
Proof.
  destruct (decide (l ∈ remaining_letters gs)) as [Hin|Hin];
    [rewrite (apply_guess_hit l gs Hin) | rewrite (apply_guess_miss l gs Hin)];
    simpl; rewrite ?length_fmap; repeat split; try done; try lia; set_solver.
Qed.

(** X12.  A guess never changes the secret word or the player of the game,
    never shortens the puzzle and never removes a guessed letter: the
    guesses afterwards are the guesses before, with at most the normalised
    letter added; the miss count and the remaining letters move in one
    direction only. *)
Theorem guess_keeps_word_and_guesses
    (reg : gmap string GameState) (sid letter : string) (gs : GameState) :
  reachable reg → reg !! sid = Some gs →
  ∃ gs', (_make_guess letter sid reg).2 !! sid = Some gs' ∧
         word gs' = word gs ∧ player_name gs' = player_name gs ∧
         length (puzzle gs') = length (puzzle gs) ∧
         guesses gs ⊆ guesses gs' ∧
         guesses gs' ⊆ guesses gs ∪ {[strip (upper letter)]} ∧
         remaining_letters gs' ⊆ remaining_letters gs ∧
         (image_idx gs ≤ image_idx gs')%Z.
Proof.
  intros Hreach Hgs. pose proof (reachable_ok reg Hreach) as Hreg.
  destruct (make_guess_cases letter sid reg Hreg)
    as [[msg ->]|(g & img & msg & Hg & _ & _ & _ & _ & E)].
  - exists gs. simpl. repeat split; try done; try lia; set_solver.
  - simpl in E. rewrite E. simpl. assert (g = gs) as -> by congruence.
    set (gs' := apply_guess (strip (upper letter)) gs).
    destruct (apply_guess_fields (strip (upper letter)) gs)
      as (Ew & En & Eg & Ep & Er & Ei). fold gs' in Ew, En, Eg, Ep, Er, Ei.
    exists (close_if_over gs'). rewrite lookup_insert_eq.
    destruct (close_if_over_fields gs') as (-> & -> & -> & -> & -> & -> & _).
    rewrite Ew, En, Eg, Ep. repeat split; try done; try lia; set_solver.
Qed.

Lemma guess_keeps_word_and_guesses_witness :
  ∃ gs', (_make_guess "z" "s" cat_game).2 !! "s" = Some gs' ∧
         word gs' = word cat_state ∧ player_name gs' = player_name cat_state ∧
         length (puzzle gs') = length (puzzle cat_state) ∧
         guesses cat_state ⊆ guesses gs' ∧
         guesses gs' ⊆ guesses cat_state ∪ {[strip (upper "z")]} ∧
         remaining_letters gs' ⊆ remaining_letters cat_state ∧
         (image_idx cat_state ≤ image_idx gs')%Z.
Proof.
  apply (guess_keeps_word_and_guesses cat_game "s" "z" cat_state).
  - apply reachable_run_all, reachable_init.
  - vm_compute. reflexivity.
Defined.

(** X13.  A game that is over, won or lost, is frozen: every guess for its
    session is rejected with [No active game. Start a new game first.] and
    the registry stays as it is, until the session is started again or
    ended. *)
Theorem finished_game_is_frozen
    (reg : gmap string GameState) (sid letter : string) (gs : GameState) :
  reachable reg → reg !! sid = Some gs → is_game_over gs = true →
  _make_guess letter sid reg = (Returned (Plain "error" msg_not_active), reg).
Proof.
  intros Hreach Hgs Hover.
  apply (guess_on_inactive reg sid letter gs Hgs).
  rewrite (ok_active gs (reachable_ok reg Hreach sid gs Hgs)). by rewrite Hover.
Qed.

(** X14.  The flag [correct] of a successful guess, computed by
    [letter in word], agrees with the effect on the game, decided by the
    removal from the remaining letters: it is true exactly when the guess
    reveals a position and leaves the miss count alone, false exactly when
    the miss count grows by one. *)
Theorem correct_flag_matches_effect
    (reg : gmap string GameState) (sid letter : string) (gs : GameState)
    (r : Response) :
  reachable reg → reg !! sid = Some gs →
  (_make_guess letter sid reg).1 = Returned r → status_of r = "success" →
  ∃ gs', (_make_guess letter sid reg).2 !! sid = Some gs' ∧
         (correct_of r = Some true ↔
            position_revealed gs gs' ∧ image_idx gs' = image_idx gs) ∧
         (correct_of r = Some false ↔
            puzzle gs' = puzzle gs ∧ image_idx gs' = (image_idx gs + 1)%Z).
Proof.
  intros Hreach Hgs Hr Hs. pose proof (reachable_ok reg Hreach) as Hreg.
  destruct (make_guess_cases letter sid reg Hreg)
    as [[msg E]|(g & img & msg & Hg & Hact & Hlen & Halpha & Hnew & E)].
  { rewrite E in Hr. simpl in Hr. by injection Hr as <-. }
  simpl in E. rewrite E in Hr |- *. simpl in Hr |- *. injection Hr as <-.
  assert (g = gs) as -> by congruence.
  pose proof (Hreg _ _ Hgs) as Hok.
  set (l := strip (upper letter)) in *. set (gs' := apply_guess l gs).
  destruct (close_if_over_fields gs') as (_ & _ & _ & Ep & Ei & _ & _).
  exists (close_if_over gs'). rewrite lookup_insert_eq. split; [done|].
  unfold position_revealed. rewrite Ep, Ei. cbn [correct_of].
  pose proof (correct_iff_remaining l gs Hok Hlen Hnew) as Hc.
  subst gs'. destruct (decide (l ∈ remaining_letters gs)) as [Hin|Hin].
  - rewrite (proj2 Hc Hin). pose proof (hit_reveals l gs Hok Hnew Hin) as Hrev.
    unfold position_revealed in Hrev.
    rewrite (apply_guess_hit l gs Hin) in Hrev |- *. simpl in Hrev |- *.
    split; [done|]. split; [done|]. intros [_ ?]. lia.
  - assert (contains l (word gs) = false) as ->.
    { destruct (contains l (word gs)); [|done]. by destruct Hin; apply Hc. }
    rewrite (apply_guess_miss l gs Hin). simpl.
    split; [|done]. split; [done|]. intros [_ ?]. lia.
Qed.

Lemma correct_flag_matches_effect_witness :
  ∃ gs', (_make_guess "T" "s" cat_game_ca).2 !! "s" = Some gs' ∧
         (correct_of cat_win = Some true ↔
            position_revealed (default GameState_new (cat_game_ca !! "s")) gs' ∧
            image_idx gs' = image_idx (default GameState_new (cat_game_ca !! "s"))) ∧
         (correct_of cat_win = Some false ↔
            puzzle gs' = puzzle (default GameState_new (cat_game_ca !! "s")) ∧
            image_idx gs' =
            (image_idx (default GameState_new (cat_game_ca !! "s")) + 1)%Z).
Proof.
  apply (correct_flag_matches_effect cat_game_ca "s" "T"
           (default GameState_new (cat_game_ca !! "s")) cat_win).
  - apply reachable_run_all, reachable_init.
  - vm_compute. reflexivity.
  - vm_compute. reflexivity.
  - reflexivity.
Defined.

(** X15.  On an active game of a reachable registry an input that is not
    exactly one letter after upper-casing and stripping (the empty string,
    blanks, several characters, a digit) is rejected with [Please provide
    exactly one letter.] and the registry is unchanged. *)
Theorem invalid_guess_rejected
    (reg : gmap string GameState) (sid letter : string) (gs : GameState) :
  reachable reg → reg !! sid = Some gs → is_active gs = true →
  len (strip (upper letter)) ≠ 1%Z ∨ isalpha (strip (upper letter)) = false →
  _make_guess letter sid reg = (Returned (Plain "error" msg_one_letter), reg).
Proof.
  intros Hreach Hgs Hact Hbad.
  pose proof (reachable_ok reg Hreach sid gs Hgs) as Hok.
  unfold _make_guess. rewrite Hgs, Hact, (active_not_over gs Hok Hact). simpl.
  destruct Hbad as [Hlen| ->].
  - by destruct (Z.eqb_spec (len (strip (upper letter))) 1).
  - by rewrite orb_true_r.
Qed.

Lemma invalid_guess_rejected_witness :
  _make_guess "   " "s" cat_game =
  (Returned (Plain "error" msg_one_letter), cat_game).
Proof.
  apply (invalid_guess_rejected cat_game "s" "   " cat_state).
  - apply reachable_run_all, reachable_init.
  - vm_compute. reflexivity.
  - reflexivity.
  - left. vm_compute. discriminate.
Defined.

Lemma finished_game_is_frozen_witness :
  _make_guess "z" "s" cat_game_won =
  (Returned (Plain "error" msg_not_active), cat_game_won).
Proof.
  apply (finished_game_is_frozen cat_game_won "s" "z" cat_state_won).
  - apply reachable_run_all, reachable_init.
  - vm_compute. reflexivity.
  - vm_compute. reflexivity.
Defined.

(** ** Further invariants of the reachable games *)

(** X16.  The miss count counts the wrong guesses: in every reachable
    registry [image_idx] of a game is the number of guessed letters that do
    not occur in its secret word. *)
Theorem miss_count_is_wrong_guesses
    (reg : gmap string GameState) (sid : string) (gs : GameState) :
  reachable reg → reg !! sid = Some gs →
  image_idx gs = Z.of_nat (size (wrong_guesses gs)).
Proof.
  intros Hreach Hgs.
  refine (reachable_games_ind
            (λ gs, image_idx gs = Z.of_nat (size (wrong_guesses gs)))
            _ _ reg Hreach sid gs Hgs); clear.
  - intros w player gs0 _. unfold wrong_guesses. simpl.
    replace (∅ ∖ letter_set w) with (∅ : gset string) by set_solver.
    by rewrite size_empty.
  - intros gs letter Hok IH Hact Hlen Halpha Hnew.
    set (l := strip (upper letter)) in *.
    destruct (close_if_over_fields (apply_guess l gs))
      as (Ew & Eg & _ & _ & Ei & _ & _).
    unfold wrong_guesses in *. rewrite Ew, Eg, Ei.
    pose proof (ok_remaining gs Hok) as Hrem.
    destruct (decide (l ∈ remaining_letters gs)) as [Hin|Hin].
    + rewrite (apply_guess_hit l gs Hin). simpl. rewrite IH. do 2 f_equal.
      rewrite Hrem in Hin. set_solver.
    + rewrite (apply_guess_miss l gs Hin). simpl. rewrite IH.
      replace ((guesses gs ∪ {[l]}) ∖ letter_set (word gs))
        with (guesses gs ∖ letter_set (word gs) ∪ {[l]})
        by (rewrite Hrem in Hin; set_solver).
      rewrite (size_union (guesses gs ∖ letter_set (word gs)) {[l]})
        by set_solver.
      rewrite size_singleton. lia.
Qed.

Lemma miss_count_is_wrong_guesses_witness :
  image_idx cat_state = Z.of_nat (size (wrong_guesses cat_state)).
Proof.
  apply (miss_count_is_wrong_guesses cat_game "s" cat_state).
  - apply reachable_run_all, reachable_init.
  - vm_compute. reflexivity.
Defined.

(** X17.  Every guess recorded in a reachable registry is exactly one
    character and a letter: what [guesses_made] lists is single letters,
    never an empty string, a blank, a digit or a longer text. *)
Theorem guesses_are_single_letters
    (reg : gmap string GameState) (sid : string) (gs : GameState) :
  reachable reg → reg !! sid = Some gs →
  ∀ g, g ∈ guesses gs → len g = 1%Z ∧ isalpha g = true.
Proof.
  intros Hreach Hgs.
  refine (reachable_games_ind
            (λ gs, ∀ g, g ∈ guesses gs → len g = 1%Z ∧ isalpha g = true)
            _ _ reg Hreach sid gs Hgs); clear.
  - intros w player gs0 _ g. simpl. by intros ?%elem_of_empty.
  - intros gs letter Hok IH Hact Hlen Halpha Hnew g.
    destruct (close_if_over_fields (apply_guess (strip (upper letter)) gs))
      as (_ & -> & _).
    destruct (apply_guess_fields (strip (upper letter)) gs)
      as (_ & _ & -> & _).
    intros [?| ->%elem_of_singleton]%elem_of_union; [by apply IH | done].
Qed.

Lemma guesses_are_single_letters_witness :
  "C" ∈ guesses cat_state ∧ len "C" = 1%Z ∧ isalpha "C" = true.
Proof.
  assert (Hin : "C" ∈ guesses cat_state)
    by (apply (bool_decide_unpack _); vm_compute; exact I).
  split; [exact Hin|].
  apply (guesses_are_single_letters cat_game "s" cat_state).
  - apply reachable_run_all, reachable_init.
  - vm_compute. reflexivity.
  - exact Hin.
Defined.

(** X18.  No game of a reachable registry is won and lost at once: a game
    that is won has fewer than nine misses. *)
Theorem never_won_and_lost
    (reg : gmap string GameState) (sid : string) (gs : GameState) :
  reachable reg → reg !! sid = Some gs →
  (is_game_won gs = true → (image_idx gs < 9)%Z) ∧
  is_game_won gs && is_game_lost gs = false.
Proof.
  intros Hreach Hgs.
  assert (Hwon : is_game_won gs = true → (image_idx gs < 9)%Z).
  { refine (reachable_games_ind
              (λ gs, is_game_won gs = true → (image_idx gs < 9)%Z)
              _ _ reg Hreach sid gs Hgs); clear.
    - intros w player gs0 Hw. simpl. lia.
    - intros gs letter Hok IH Hact Hlen Halpha Hnew.
      set (l := strip (upper letter)) in *.
      destruct (close_if_over_fields (apply_guess l gs))
        as (_ & _ & Er & _ & Ei & _ & _).
      unfold is_game_won at 1. rewrite Er, Ei. fold (is_game_won (apply_guess l gs)).
      pose proof (active_not_over gs Hok Hact) as Hover.
      apply orb_false_iff in Hover as [Hnw Hnl].
      destruct (decide (l ∈ remaining_letters gs)) as [Hin|Hin].
      + rewrite (apply_guess_hit l gs Hin). simpl. intros _.
        destruct (Z.lt_ge_cases (image_idx gs) 9) as [?|H9]; [done|].
        apply is_game_lost_iff in H9. congruence.
      + rewrite (apply_guess_miss l gs Hin). unfold is_game_won in *. simpl.
        congruence. }
  split; [done|].
  destruct (is_game_won gs); [|done]. simpl.
  destruct (is_game_lost gs) eqn:Hl; [|done].
  apply is_game_lost_iff in Hl. specialize (Hwon eq_refl). lia.
Qed.

Lemma never_won_and_lost_witness :
  (is_game_won cat_state = true → (image_idx cat_state < 9)%Z) ∧
  is_game_won cat_state && is_game_lost cat_state = false.
Proof.
  apply (never_won_and_lost cat_game "s" cat_state).
  - apply reachable_run_all, reachable_init.
  - vm_compute. reflexivity.
Defined.

(** ** The update of the state, on any state *)

(** X19.  [update_state_on_guess] never hides a revealed position and never
    changes the letter at a position, whatever state it is applied to: each
    position keeps its character, stays revealed if it was, and can become
    revealed only if its character is the current guess. *)
Theorem update_never_hides (gs : GameState) (i : nat) (pl : PuzzleLetter) :
  puzzle gs !! i = Some pl →
  ∃ pl', puzzle (update_state_on_guess gs) !! i = Some pl' ∧
         character pl' = character pl ∧
         (guessed pl = true → guessed pl' = true) ∧
         (guessed pl' = true →
            guessed pl = true ∨ character pl = current_guess gs).
Proof.
  intros Hpl. unfold update_state_on_guess, set_remove.
  case_decide as Hin; simpl.
  - rewrite list_lookup_fmap, Hpl. simpl. eexists. split; [done|]. simpl.
    split; [done|]. split.
    + by intros ->.
    + intros [?|?%bool_decide_eq_true]%orb_true_iff; auto.
  - exists pl. auto.
Qed.

Lemma update_never_hides_witness :
  ∃ pl', puzzle (update_state_on_guess cat_state) !! 0%nat = Some pl' ∧
         character pl' = character (mkPuzzleLetter "C" true) ∧
         (guessed (mkPuzzleLetter "C" true) = true → guessed pl' = true) ∧
         (guessed pl' = true →
            guessed (mkPuzzleLetter "C" true) = true ∨
            character (mkPuzzleLetter "C" true) = current_guess cat_state).
Proof.
  apply (update_never_hides cat_state 0 (mkPuzzleLetter "C" true)).
  vm_compute. reflexivity.
Defined.

(** ** The outcome of a guess, read off the state before it *)

(** X20.  A successful guess declares the win exactly when its letter is
    the one letter still remaining, and declares the loss exactly when it
    is the ninth miss: eight misses before and a letter that is not in the
    secret word.  In every other case the game goes on. *)
Theorem outcome_of_accepted_guess
    (reg : gmap string GameState) (sid letter : string) (gs : GameState)
    (r : Response) :
  reachable reg → reg !! sid = Some gs →
  (_make_guess letter sid reg).1 = Returned r → status_of r = "success" →
  (declares_won r ↔ remaining_letters gs = {[strip (upper letter)]}) ∧
  (declares_lost r ↔
     image_idx gs = 8%Z ∧ strip (upper letter) ∉ letter_set (word gs)) ∧
  (game_over_of r = Some false ↔ ¬ declares_won r ∧ ¬ declares_lost r).
Proof.
  intros Hreach Hgs Hr Hs. pose proof (reachable_ok reg Hreach) as Hreg.
  destruct (make_guess_cases letter sid reg Hreg)
    as [[msg E]|(g & img & msg & Hg & Hact & Hlen & Halpha & Hnew & E)].
  { rewrite E in Hr. simpl in Hr. by injection Hr as <-. }
  simpl in E. rewrite E in Hr. simpl in Hr. injection Hr as <-.
  assert (g = gs) as -> by congruence. clear E.
  pose proof (Hreg _ _ Hgs) as Hok.
  set (l := strip (upper letter)) in *.
  pose proof (active_not_over gs Hok Hact) as Hover.
  apply orb_false_iff in Hover as [Hnw Hnl].
  assert (Hne : remaining_letters gs ≠ ∅).
  { intros He%is_game_won_iff. congruence. }
  assert (Hlt : (image_idx gs < 9)%Z).
  { destruct (Z.lt_ge_cases (image_idx gs) 9) as [?|H9]; [done|].
    apply is_game_lost_iff in H9. congruence. }
  pose proof (ok_image gs Hok) as Himg.
  pose proof (ok_remaining gs Hok) as Hrem.
  unfold declares_won, declares_lost, verdict, is_game_over.
  cbn [game_over_of won_of].
  destruct (decide (l ∈ remaining_letters gs)) as [Hin|Hin].
  - assert (Hw : is_game_won (apply_guess l gs) = true ↔
                 remaining_letters gs = {[l]}).
    { rewrite is_game_won_iff, (apply_guess_hit l gs Hin). simpl. split.
      - intros He. apply set_eq. intros x. rewrite elem_of_singleton.
        split; [|by intros ->]. intros Hx.
        destruct (decide (x = l)) as [|Hxl]; [done|].
        assert (x ∈ remaining_letters gs ∖ {[l]}) as Hd by set_solver.
        rewrite He in Hd. by apply elem_of_empty in Hd.
      - intros ->. set_solver. }
    assert (Hl : is_game_lost (apply_guess l gs) = false).
    { rewrite (apply_guess_hit l gs Hin). unfold is_game_lost in *. by simpl. }
    rewrite Hl. assert (l ∈ letter_set (word gs)) by (rewrite Hrem in Hin; set_solver).
    destruct (is_game_won (apply_guess l gs)); simpl.
    + split; [split; [intros _; by apply Hw | done]|].
      split; [split; [by intros [_ ?] | by intros [_ ?]]|].
      split; [done | intros [Hx _]; by destruct Hx].
    + split; [split; [by intros [? _] | intros Hx%Hw; done]|].
      split; [split; [by intros [? _] | by intros [_ ?]]|].
      split; [intros _; split; by intros [? _] | done].
  - assert (Hw : is_game_won (apply_guess l gs) = false).
    { rewrite (apply_guess_miss l gs Hin). unfold is_game_won in *. by simpl. }
    assert (Hl : is_game_lost (apply_guess l gs) = true ↔ image_idx gs = 8%Z).
    { rewrite is_game_lost_iff, (apply_guess_miss l gs Hin). simpl. lia. }
    assert (Hnot : l ∉ letter_set (word gs)) by (rewrite Hrem in Hin; set_solver).
    rewrite Hw. simpl.
    assert (Hone : remaining_letters gs ≠ {[l]}) by set_solver.
    destruct (is_game_lost (apply_guess l gs)); simpl.
    + split; [split; [by intros [_ ?] | done]|].
      split; [split; [intros _; split; [by apply Hl | done] | done]|].
      split; [done | intros [_ Hx]; by destruct Hx].
    + split; [split; [by intros [? _] | done]|].
      split; [split; [by intros [? _] | intros [Hx%Hl _]; done]|].
      split; [intros _; split; by intros [? _] | done].
Qed.

Lemma outcome_of_accepted_guess_witness :
  (declares_won cat_win ↔
     remaining_letters (default GameState_new (cat_game_ca !! "s")) =
     {[strip (upper "T")]}) ∧
  (declares_lost cat_win ↔
     image_idx (default GameState_new (cat_game_ca !! "s")) = 8%Z ∧
     strip (upper "T") ∉
       letter_set (word (default GameState_new (cat_game_ca !! "s")))) ∧
  (game_over_of cat_win = Some false ↔
     ¬ declares_won cat_win ∧ ¬ declares_lost cat_win).
Proof.
  apply (outcome_of_accepted_guess cat_game_ca "s" "T"
           (default GameState_new (cat_game_ca !! "s")) cat_win).
  - apply reachable_run_all, reachable_init.
  - vm_compute. reflexivity.
  - vm_compute. reflexivity.
  - reflexivity.
Defined.

(** ** The list of guesses in a result *)

Lemma sorted_list_spec (s : gset string) :
  Sorted String.le (sorted_list s) ∧ NoDup (sorted_list s) ∧
  ∀ g, g ∈ sorted_list s ↔ g ∈ s.
Proof.
  unfold sorted_list. split; [apply (Sorted_merge_sort String.le)|].
  pose proof (merge_sort_Permutation String.le (elements s)) as Hp.
  split.
  - rewrite Hp. apply NoDup_elements.
  - intros g. rewrite Hp. apply elem_of_elements.
Qed.

(** X21.  The list [guesses_made] of a successful guess is in ascending
    order, names no letter twice, and names exactly the letters guessed
    before together with the letter just guessed. *)
Theorem guesses_made_sorted_and_complete
    (reg : gmap string GameState) (sid letter : string) (gs : GameState)
    (st l : string) (correct : bool) (display image : string)
    (made : list string) (remaining : Z) (over : bool) (won : option bool)
    (message : string) :
  reachable reg → reg !! sid = Some gs →
  (_make_guess letter sid reg).1 =
    Returned (Guessed st l correct display image made remaining over won message) →
  l = strip (upper letter) ∧
  Sorted String.le made ∧ NoDup made ∧
  ∀ g, g ∈ made ↔ g ∈ guesses gs ∨ g = l.
Proof.
  intros Hreach Hgs Hr. pose proof (reachable_ok reg Hreach) as Hreg.
  destruct (make_guess_cases letter sid reg Hreg)
    as [[msg E]|(g & img & msg & Hg & _ & _ & _ & _ & E)].
  { rewrite E in Hr. simpl in Hr. by injection Hr. }
  simpl in E. rewrite E in Hr. simpl in Hr.
  assert (g = gs) as -> by congruence.
  injection Hr as _ <- _ _ _ <- _ _ _ _.
  destruct (sorted_list_spec (guesses (apply_guess (strip (upper letter)) gs)))
    as (Hs & Hn & He).
  split; [done|]. split; [done|]. split; [done|].
  intros x. rewrite He.
  destruct (apply_guess_fields (strip (upper letter)) gs) as (_ & _ & -> & _).
  set_solver.
Qed.

Lemma guesses_made_sorted_and_complete_witness :
  "T" = strip (upper "T") ∧
  Sorted String.le ["A"; "C"; "T"] ∧ NoDup ["A"; "C"; "T"] ∧
  ∀ g, g ∈ ["A"; "C"; "T"] ↔
       g ∈ guesses (default GameState_new (cat_game_ca !! "s")) ∨ g = "T".
Proof.
  apply (guesses_made_sorted_and_complete cat_game_ca "s" "T"
           (default GameState_new (cat_game_ca !! "s"))
           "success" "T" true "C A T" empty_scene ["A"; "C"; "T"] 9 true
           (Some true) "Congratulations Alice! You won! The word was 'CAT'.").
  - apply reachable_run_all, reachable_init.
  - vm_compute. reflexivity.
  - vm_compute. reflexivity.
Defined.

(** ** The display of a won game *)

(** X22.  The display of a game that is won shows the whole secret word,
    its letters separated by single spaces. *)
Theorem won_display_shows_word
    (reg : gmap string GameState) (sid : string) (gs : GameState) :
  reachable reg → reg !! sid = Some gs → is_game_won gs = true →
  get_display_word gs = join " " (chars (word gs)).
Proof.
  intros Hreach Hgs Hwon.
  pose proof (reachable_ok reg Hreach sid gs Hgs) as Hok.
  apply is_game_won_iff in Hwon. rewrite (ok_remaining gs Hok) in Hwon.
  unfold get_display_word. rewrite (ok_puzzle gs Hok), <- list_fmap_compose.
  f_equal. rewrite <- (list_fmap_id (chars (word gs))) at 2.
  apply list_fmap_ext. intros i c Hc. simpl.
  apply list_elem_of_lookup_2, elem_of_letter_set in Hc.
  rewrite bool_decide_eq_true_2; [done | set_solver].
Qed.

Lemma won_display_shows_word_witness :
  get_display_word cat_state_won = join " " (chars (word cat_state_won)).
Proof.
  apply (won_display_shows_word cat_game_won "s" cat_state_won).
  - apply reachable_run_all, reachable_init.
  - vm_compute. reflexivity.
  - vm_compute. reflexivity.
Defined.
